(** * The megawatcher of juju-core's [state] package

    A shallow embedding of [state/megawatcher.go]: the shared snapshot
    [allInfo] (a linked list of entity entries ordered by revision number,
    with a side map from entity id to list element), and the single-writer
    [allWatcher] that serves [Next]/[Stop] requests of many watchers.

    Go objects reached through pointers (list elements with their entries,
    watchers) live in explicit stores indexed by addresses; methods with a
    pointer receiver are procedures of a state-and-panic monad. *)

From Stdlib Require Import ZArith Lia.
From stdpp Require Import base numbers option list strings.
From stdpp Require Import gmap fin_maps sorting.

Local Open Scope Z_scope.

(** ** Outcomes and procedures *)

(** A Go call returns, or panics (which aborts the process).  [OutOfFuel] is
    an artefact of the embedding: the two pointer-chasing loops of [seen] and
    [leave] are run with a bound on their iterations, shown sufficient in
    [forEachFrom_enough_fuel]. *)
Inductive outcome (A : Type) : Type :=
| Ok (x : A)
| Panic (msg : string)
| OutOfFuel.
Arguments Ok {A} x.
Arguments Panic {A} msg.
Arguments OutOfFuel {A}.

(** A procedure over a mutable state [S]: the state is threaded through, and
    is kept as it was at the point of a panic. *)
Definition proc (S A : Type) : Type := S → outcome A * S.

Definition ret {S A : Type} (x : A) : proc S A := λ s, (Ok x, s).

Definition bind {S A B : Type} (k : A → proc S B) (m : proc S A) : proc S B :=
  λ s, match m s with
       | (Ok x, s') => k x s'
       | (Panic msg, s') => (Panic msg, s')
       | (OutOfFuel, s') => (OutOfFuel, s')
       end.

Global Instance proc_ret {S : Type} : MRet (proc S) := @ret S.
Global Instance proc_bind {S : Type} : MBind (proc S) := @bind S.

Definition get {S : Type} : proc S S := λ s, (Ok s, s).
Definition gets {S A : Type} (f : S → A) : proc S A := λ s, (Ok (f s), s).
Definition modify {S : Type} (f : S → S) : proc S unit := λ s, (Ok tt, f s).
Definition panic {S A : Type} (msg : string) : proc S A := λ s, (Panic msg, s).
Definition outOfFuel {S A : Type} : proc S A := λ s, (OutOfFuel, s).

(** Runs a procedure on a component of a larger state. *)
Definition zoom {S T A : Type} (prj : T → S) (upd : S → T → T) (m : proc S A)
  : proc T A :=
  λ t, let '(o, s') := m (prj t) in (o, upd s' t).

(** ** Machine integers *)

(** [int64] (and [int] on the 64-bit targets juju is built for) as [Z] with
    two's complement wrap-around. *)
Definition wrap64 (z : Z) : Z := (z + 2 ^ 63) `mod` 2 ^ 64 - 2 ^ 63.
Definition maxInt64 : Z := 2 ^ 63 - 1.
Definition incr64 (z : Z) : Z := wrap64 (z + 1).
Definition decr64 (z : Z) : Z := wrap64 (z - 1).

(** ** Errors *)

(** [mgo.ErrNotFound] is a sentinel compared by identity; every other error
    value is some other error. *)
Inductive error : Type :=
| ErrNotFound
| ErrDying
| ErrOther (msg : string).

Global Instance error_eq_dec : EqDecision error.
Proof. solve_decision. Defined.

(** Addresses of heap objects. *)
Definition elem : Type := nat.
Definition watcher : Type := nat.

(** The message of the runtime panic on reading through a pointer that was
    never allocated.  Go's memory safety excludes it; it is the outcome of
    the embedding on a store that lacks the address. *)
Definition nilDereference : string :=
  "invalid memory address or nil pointer dereference".

Section Megawatcher.

(** The key of an entity id is an [interface{}] used as part of a map key,
    and [params.EntityInfo] is an interface compared with
    [reflect.DeepEqual]; both are declared outside this file and are taken as
    parameters with the equality the code uses. *)
Context {Key : Type} {Key_eq_dec : EqDecision Key}
  {Key_countable : Countable Key}.
Context {EntityInfo : Type} {EntityInfo_eq_dec : EqDecision EntityInfo}.

(** ** Data model *)

(** [entityId] holds the mongo identifier of an entity. *)
Record entityId : Type := mkEntityId {
  collection : string;
  id_ : Key
}.

Global Instance entityId_eq_dec : EqDecision entityId.
Proof. solve_decision. Defined.

Global Program Instance entityId_countable : Countable entityId :=
  inj_countable' (λ i, (collection i, id_ i)) (λ p, mkEntityId p.1 p.2) _.
Next Obligation. by intros []. Qed.

(** [params.Delta]. *)
Record Delta : Type := mkDelta {
  Removed : bool;
  Entity : EntityInfo
}.

(** [entityEntry] holds an entry in the linked list of all entities known to
    a StateWatcher. *)
Record entityEntry : Type := mkEntry {
  revno : Z;
  creationRevno : Z;
  removed : bool;
  refCount : Z;
  info : EntityInfo
}.

(** [allInfo].  [list_] is the [container/list] of the source, front first,
    as the sequence of its elements' addresses; [store] holds the entry each
    element points to.  An element taken off the list stays in [store], as a
    Go object stays alive while a local variable still points to it. *)
Record allInfo : Type := mkAllInfo {
  latestRevno : Z;
  entities : gmap entityId elem;
  list_ : list elem;
  store : gmap elem entityEntry
}.

Definition set_latestRevno (f : Z → Z) (a : allInfo) : allInfo :=
  mkAllInfo (f (latestRevno a)) (entities a) (list_ a) (store a).
Definition set_entities (f : gmap entityId elem → gmap entityId elem)
  (a : allInfo) : allInfo :=
  mkAllInfo (latestRevno a) (f (entities a)) (list_ a) (store a).
Definition set_list (f : list elem → list elem) (a : allInfo) : allInfo :=
  mkAllInfo (latestRevno a) (entities a) (f (list_ a)) (store a).
Definition set_store (f : gmap elem entityEntry → gmap elem entityEntry)
  (a : allInfo) : allInfo :=
  mkAllInfo (latestRevno a) (entities a) (list_ a) (f (store a)).

Definition set_revno (r : Z) (e : entityEntry) : entityEntry :=
  mkEntry r (creationRevno e) (removed e) (refCount e) (info e).
Definition set_removed (b : bool) (e : entityEntry) : entityEntry :=
  mkEntry (revno e) (creationRevno e) b (refCount e) (info e).
Definition set_refCount (c : Z) (e : entityEntry) : entityEntry :=
  mkEntry (revno e) (creationRevno e) (removed e) c (info e).
Definition set_info (i : EntityInfo) (e : entityEntry) : entityEntry :=
  mkEntry (revno e) (creationRevno e) (removed e) (refCount e) i.

(** ** container/list *)

(** [l.Remove(e)]: unlinks [e] if it is an element of [l]. *)
Definition listRemove (e : elem) (l : list elem) : list elem :=
  filter (λ x, x ≠ e) l.

(** [l.MoveToFront(e)]: nothing if [e] is not an element of [l]. *)
Definition listMoveToFront (e : elem) (l : list elem) : list elem :=
  if decide (e ∈ l) then e :: listRemove e l else l.

(** The elements after [e]; none when [e] is not on the list. *)
Fixpoint listAfter (e : elem) (l : list elem) : list elem :=
  match l with
  | [] => []
  | x :: l' => if decide (x = e) then l' else listAfter e l'
  end.

(** [e.Next()]: [nil] at the back and for an element taken off the list. *)
Definition listNext (e : elem) (l : list elem) : option elem :=
  head (listAfter e l).

(** ** allInfo *)

(** [newAllInfo] returns an allInfo holding no entities. *)
Definition newAllInfo : allInfo := mkAllInfo 0 ∅ [] ∅.

(** The entry an element's [Value] points to. *)
Definition readEntry (e : elem) : proc allInfo entityEntry :=
  λ a, match store a !! e with
       | Some en => (Ok en, a)
       | None => (Panic nilDereference, a)
       end.

Definition writeEntry (e : elem) (en : entityEntry) : proc allInfo unit :=
  modify (set_store (insert e en)).

(** [a.list.PushFront(entry)]: a new element, at an address not in use. *)
Definition pushFront (en : entityEntry) : proc allInfo elem :=
  a ← get;
  let e := fresh (dom (store a)) in
  modify (set_store (insert e en));;
  modify (set_list (cons e));;
  mret e.

(** [add] adds a new entity with the given id and associated information to
    the list. *)
Definition add (id : entityId) (i : EntityInfo) : proc allInfo unit :=
  a ← get;
  if decide (is_Some (entities a !! id)) then
    panic "adding new entry with duplicate id"
  else
    modify (set_latestRevno incr64);;
    r ← gets latestRevno;
    let entry := mkEntry r r false 0 i in
    e ← pushFront entry;
    modify (set_entities (insert id e)).

(** [decRef] decrements the reference count of an entry within the list,
    deleting it if it becomes zero and the entry is removed. *)
Definition decRef (entry : elem) (id : entityId) : proc allInfo unit :=
  en ← readEntry entry;
  let c := decr64 (refCount en) in
  writeEntry entry (set_refCount c en);;
  if decide (0 < c) then mret tt
  else if decide (c < 0) then panic "negative reference count"
  else if negb (removed en) then mret tt
  else
    a ← get;
    match entities a !! id with
    | None => panic "delete of non-existent entry"
    | Some el =>
        modify (set_entities (delete id));;
        modify (set_list (listRemove el))
    end.

(** [delete] deletes the entry with the given entity id. *)
Definition delete_ (id : entityId) : proc allInfo unit :=
  a ← get;
  match entities a !! id with
  | None => mret tt
  | Some el =>
      modify (set_entities (delete id));;
      modify (set_list (listRemove el))
  end.

(** [markRemoved] marks that the entity with the given id has been removed
    from the state.  If nothing has seen the entity, it is deleted
    immediately. *)
Definition markRemoved (id : entityId) : proc allInfo unit :=
  a ← get;
  match entities a !! id with
  | None => mret tt
  | Some el =>
      entry ← readEntry el;
      if removed entry then mret tt
      else
        modify (set_latestRevno incr64);;
        if decide (refCount entry = 0) then delete_ id
        else
          r ← gets latestRevno;
          writeEntry el (set_removed true (set_revno r entry));;
          modify (set_list (listMoveToFront el))
  end.

(** [update] updates the information for the entity with the given id. *)
Definition update (id : entityId) (i : EntityInfo) : proc allInfo unit :=
  a ← get;
  match entities a !! id with
  | None => add id i
  | Some el =>
      entry ← readEntry el;
      if decide (i = info entry) then mret tt
      else
        modify (set_latestRevno incr64);;
        r ← gets latestRevno;
        writeEntry el (set_info i (set_revno r entry));;
        modify (set_list (listMoveToFront el))
  end.

(** First loop of [changesSince]: walks from the front while the entries are
    newer than [r] and counts them ([n] of the source); the element it stops
    at is the one at that index, [nil] past the back. *)
Fixpoint countNewer (r : Z) (l : list elem) : proc allInfo nat :=
  match l with
  | [] => mret 0%nat
  | e :: l' =>
      entry ← readEntry e;
      if decide (revno entry ≤ r) then mret 0%nat
      else n ← countNewer r l'; mret (S n)
  end.

(** Second loop of [changesSince], over the elements met by following
    [Prev] from the stopping point to the front. *)
Fixpoint collectChanges (r : Z) (l : list elem) : proc allInfo (list Delta) :=
  match l with
  | [] => mret []
  | e :: l' =>
      entry ← readEntry e;
      if removed entry && bool_decide (creationRevno entry > r) then
        collectChanges r l'
      else
        changes ← collectChanges r l';
        mret (mkDelta (removed entry) (info entry) :: changes)
  end.

(** [changesSince] returns any changes that have occurred since the given
    revno, oldest first.  The capacity computed for the result slice has no
    effect on its contents and is left out. *)
Definition changesSince (r : Z) : proc allInfo (list Delta) :=
  l ← gets list_;
  n ← countNewer r l;
  collectChanges r (reverse (take n l)).

(** ** allWatcher *)

(** [allWatcherBacking] is the interface required by the allWatcher to access
    the underlying state: [fetch] returns the entity's information or an
    error, [mgo.ErrNotFound] when the entity does not exist.  [getAll],
    [watch] and [unwatch] are used by the loop's start-up and tear-down
    only. *)
Record allWatcherBacking : Type := mkBacking {
  entityIdForInfo : EntityInfo → entityId;
  fetch : entityId → EntityInfo + error
}.

(** The fields of [xStateWatcher] maintained by the allWatcher goroutine. *)
Record xStateWatcher : Type := mkWatcher {
  w_revno : Z;
  w_stopped : bool
}.

(** A watcher as [&xStateWatcher{all: aw}] makes it. *)
Definition zeroWatcher : xStateWatcher := mkWatcher 0 false.

(** [allRequest] holds a request from the StateWatcher to the allWatcher.
    [reply] is the address of the reply channel, [None] for the nil channel
    of a stop request.  The [next] pointer, which chains the outstanding
    requests of one watcher, is the tail of the list the request heads in
    [waiting]. *)
Record allRequest : Type := mkRequest {
  req_w : watcher;
  reply : option nat;
  changes : list Delta
}.

Definition set_changes (c : list Delta) (r : allRequest) : allRequest :=
  mkRequest (req_w r) (reply r) c.

(** [allWatcher].  [waiting] maps a watcher to the chain of its outstanding
    requests, head first.  [watchers] is the store of the watcher objects and
    [sent] the sequence of values sent on reply channels so far, oldest
    first, each with the request as it was when its channel was sent on. *)
Record allWatcher : Type := mkAllWatcher {
  backing : allWatcherBacking;
  all : allInfo;
  waiting : gmap watcher (list allRequest);
  watchers : gmap watcher xStateWatcher;
  sent : list (allRequest * bool)
}.

Definition set_all (a : allInfo) (aw : allWatcher) : allWatcher :=
  mkAllWatcher (backing aw) a (waiting aw) (watchers aw) (sent aw).
Definition set_waiting
  (f : gmap watcher (list allRequest) → gmap watcher (list allRequest))
  (aw : allWatcher) : allWatcher :=
  mkAllWatcher (backing aw) (all aw) (f (waiting aw)) (watchers aw) (sent aw).
Definition set_watchers
  (f : gmap watcher xStateWatcher → gmap watcher xStateWatcher)
  (aw : allWatcher) : allWatcher :=
  mkAllWatcher (backing aw) (all aw) (waiting aw) (f (watchers aw)) (sent aw).
Definition set_sent (f : list (allRequest * bool) → list (allRequest * bool))
  (aw : allWatcher) : allWatcher :=
  mkAllWatcher (backing aw) (all aw) (waiting aw) (watchers aw) (f (sent aw)).

(** [newAllWatcher] returns a new allWatcher that retrieves information using
    the given backing. *)
Definition newAllWatcher (b : allWatcherBacking) : allWatcher :=
  mkAllWatcher b newAllInfo ∅ ∅ [].

(** A method of [aw.all] called from the allWatcher. *)
Definition onAll {A : Type} (m : proc allInfo A) : proc allWatcher A :=
  zoom all set_all m.

Definition readWatcher (w : watcher) : proc allWatcher xStateWatcher :=
  gets (λ aw, default zeroWatcher (watchers aw !! w)).

Definition writeWatcher (w : watcher) (st : xStateWatcher)
  : proc allWatcher unit :=
  modify (set_watchers (insert w st)).

(** [req.reply <- b] *)
Definition send (req : allRequest) (b : bool) : proc allWatcher unit :=
  modify (set_sent (λ l, l ++ [(req, b)])).

Fixpoint forM_ {S A : Type} (f : A → proc S unit) (l : list A)
  : proc S unit :=
  match l with
  | [] => mret tt
  | x :: l' => f x;; forM_ f l'
  end.

(** The loop shared by [seen] and [leave]:
    [for e := a.list.Front(); e != nil; { next := e.Next(); ...; e = next }].
    The body answers whether the loop goes on ([false] for [break]).  [next]
    is read from the list as it is before the body runs. *)
Fixpoint forEachFrom (fuel : nat) (body : elem → proc allInfo bool)
  (e : option elem) : proc allInfo unit :=
  match e with
  | None => mret tt
  | Some el =>
      match fuel with
      | O => outOfFuel
      | S fuel' =>
          next ← gets (λ a, listNext el (list_ a));
          continue ← body el;
          if continue : bool then forEachFrom fuel' body next else mret tt
      end
  end.

Definition forEach (body : elem → proc allInfo bool) : proc allInfo unit :=
  a ← get;
  forEachFrom (length (list_ a)) body (head (list_ a)).

Definition seenBody (idFor : EntityInfo → entityId) (r : Z) (e : elem)
  : proc allInfo bool :=
  entry ← readEntry e;
  if decide (revno entry ≤ r) then mret false
  else
    (if decide (creationRevno entry > r) then
       if negb (removed entry) then
         writeEntry e (set_refCount (incr64 (refCount entry)) entry)
       else mret tt
     else if removed entry then decRef e (idFor (info entry))
     else mret tt);;
    mret true.

(** [seen] states that a StateWatcher has just been given information about
    all entities newer than the given revno. *)
Definition seen (r : Z) : proc allWatcher unit :=
  b ← gets backing;
  onAll (forEach (seenBody (entityIdForInfo b) r)).

Definition leaveBody (idFor : EntityInfo → entityId) (wrevno : Z) (e : elem)
  : proc allInfo bool :=
  entry ← readEntry e;
  if decide (creationRevno entry ≤ wrevno) then
    if removed entry && bool_decide (revno entry ≤ wrevno) then mret true
    else decRef e (idFor (info entry));; mret true
  else mret true.

(** [leave] is called when the given watcher leaves.  It decrements the
    reference counts of any entities that have been seen by the watcher. *)
Definition leave (w : watcher) : proc allWatcher unit :=
  st ← readWatcher w;
  b ← gets backing;
  onAll (forEach (leaveBody (entityIdForInfo b) (w_revno st))).

(** [handle] processes a request from a StateWatcher to the allWatcher. *)
Definition handle (req : allRequest) : proc allWatcher unit :=
  st ← readWatcher (req_w req);
  if w_stopped st then
    match reply req with
    | Some _ => send req false
    | None => mret tt
    end
  else
    match reply req with
    | None =>
        reqs ← gets (λ aw, default [] (waiting aw !! req_w req));
        forM_ (λ r, send r false) reqs;;
        modify (set_waiting (delete (req_w req)));;
        writeWatcher (req_w req) (mkWatcher (w_revno st) true);;
        leave (req_w req)
    | Some _ =>
        modify (set_waiting
                  (λ m, <[req_w req := req :: default [] (m !! req_w req)]> m))
    end.

(** The statements of the loop of [respond], for the watcher [w] whose
    chain of outstanding requests is [req :: rest]. *)
Definition respondOne (w : watcher) (req : allRequest) (rest : list allRequest)
  : proc allWatcher unit :=
  st ← readWatcher w;
  let r := w_revno st in
  cs ← onAll (changesSince r);
  match cs with
  | [] => mret tt
  | _ :: _ =>
      latest ← gets (λ aw, latestRevno (all aw));
      writeWatcher w (mkWatcher latest (w_stopped st));;
      send (set_changes cs req) true;;
      modify (set_waiting
                (match rest with
                 | [] => delete w
                 | _ :: _ => insert w rest
                 end));;
      seen r
  end.

(** The body of the loop of [respond] at the key [w] of [aw.waiting]: the
    value at the key is the head of the chain, its [next] the rest. *)
Definition respondAt (w : watcher) : proc allWatcher unit :=
  reqs ← gets (λ aw, waiting aw !! w);
  match reqs with
  | Some (req :: rest) => respondOne w req rest
  | _ => mret tt
  end.

(** [respond] responds to all outstanding requests that are satisfiable.
    [range aw.waiting] visits the keys in an order Go leaves unspecified:
    [ks] is the order of this pass.  A key is visited with the value it has
    then; the body changes the value of the visited key only. *)
Definition respond (ks : list watcher) : proc allWatcher unit :=
  forM_ respondAt ks.

(** [changed] updates the allWatcher's idea of the current state in response
    to the given change.  It returns the error of the source, [None] for
    [nil]. *)
Definition changed (id : entityId) : proc allWatcher (option error) :=
  b ← gets backing;
  match fetch b id with
  | inr ErrNotFound => onAll (markRemoved id);; mret None
  | inr err => mret (Some err)
  | inl i => onAll (update id i);; mret None
  end.

(** What the [select] of [loop] receives. *)
Inductive loopEvent : Type :=
| Dying
| Change (c : string) (k : Key)
| Request (req : allRequest).

(** One iteration of the [for] of [loop].  [Some err] is [return err], which
    ends the loop; [None] is the end of the iteration, after [respond]. *)
Definition loopIteration (ev : loopEvent) (ks : list watcher)
  : proc allWatcher (option error) :=
  match ev with
  | Dying => mret (Some ErrDying)
  | Change c k =>
      err ← changed (mkEntityId c k);
      match err with
      | Some e => mret (Some e)
      | None => respond ks;; mret None
      end
  | Request req => handle req;; respond ks;; mret None
  end.

(** ** Invariants of allInfo *)

(** The revno of the entry of an element. *)
Definition revnoAt (a : allInfo) (e : elem) : Z :=
  from_option revno 0 (store a !! e).

(** The entry at position [i] of the list, counted from the front. *)
Definition entryAt (a : allInfo) (i : nat) : option entityEntry :=
  list_ a !! i ≫= λ e, store a !! e.

(** The entries of the list, front first. *)
Definition entriesOf (a : allInfo) : list entityEntry :=
  omap (λ e, store a !! e) (list_ a).

(** The state of an allInfo between two calls of its methods: the list
    holds distinct elements, each with an entry; the map sends distinct ids
    to distinct elements of the list; revnos decrease strictly from the
    front and none is beyond [latestRevno]; no entry changed before it was
    created. *)
Record wf (a : allInfo) : Prop := mkWf {
  wf_latest : 0 ≤ latestRevno a;
  wf_nodup : NoDup (list_ a);
  wf_store : ∀ e, e ∈ list_ a → is_Some (store a !! e);
  wf_map : ∀ id e, entities a !! id = Some e → e ∈ list_ a;
  wf_inj : ∀ id1 id2 e,
    entities a !! id1 = Some e → entities a !! id2 = Some e → id1 = id2;
  wf_sorted : StronglySorted (λ e1 e2, revnoAt a e1 > revnoAt a e2) (list_ a);
  wf_bound : ∀ e, e ∈ list_ a → revnoAt a e ≤ latestRevno a;
  wf_creation : ∀ e en, store a !! e = Some en → creationRevno en ≤ revno en
}.

(** The mutations of an allInfo. *)
Inductive mutation : Type :=
| Add (id : entityId) (i : EntityInfo)
| Update (id : entityId) (i : EntityInfo)
| MarkRemoved (id : entityId)
| DecRef (entry : elem) (id : entityId).

Definition mutate (m : mutation) : proc allInfo unit :=
  match m with
  | Add id i => add id i
  | Update id i => update id i
  | MarkRemoved id => markRemoved id
  | DecRef entry id => decRef entry id
  end.

(** The allInfos the code can build: from [newAllInfo], by the mutations
    that return, while the counter is below the largest [int64], and by the
    increments of a reference count that [seen] makes. *)
Inductive reachable : allInfo → Prop :=
| reach_new : reachable newAllInfo
| reach_mutate m a a' :
    reachable a → latestRevno a < maxInt64 → mutate m a = (Ok tt, a') →
    reachable a'
| reach_seen e en a :
    reachable a → store a !! e = Some en →
    reachable (set_store (insert e (set_refCount (incr64 (refCount en)) en)) a).

(** The count after the decrement of [decRef]. *)
Definition decremented (a : allInfo) (entry : elem) (en : entityEntry)
  : allInfo :=
  set_store (insert entry (set_refCount (decr64 (refCount en)) en)) a.

(** The allInfo has at its front an entry stamped with [latestRevno]. *)
Definition stamped (a : allInfo) : Prop :=
  ∃ e l en, list_ a = e :: l ∧ store a !! e = Some en ∧
            revno en = latestRevno a.

(** What [seen] and [leave] may do to an allInfo as far as the list and
    [latestRevno] go: unlink elements. *)
Definition unlinks (a a' : allInfo) : Prop :=
  latestRevno a' = latestRevno a ∧ list_ a' `sublist_of` list_ a.

(** The iterations still to run from an element: those of the elements
    after it, and its own; one for an element already taken off the list. *)
Definition iterationsFrom (e : option elem) (l : list elem) : nat :=
  match e with
  | None => 0
  | Some el => if decide (el ∈ l) then S (length (listAfter el l)) else 1
  end.

(** ** What [changesSince] reports *)

(** The delta made of an entry. *)
Definition toDelta (en : entityEntry) : Delta :=
  mkDelta (removed en) (info en).

(** The entry was created and removed after revno [r]. *)
Definition bornAndGoneSince (r : Z) (en : entityEntry) : Prop :=
  removed en = true ∧ creationRevno en > r.

(** The entry changed after revno [r] and is not one created and removed
    since. *)
Definition reported (r : Z) (en : entityEntry) : Prop :=
  revno en > r ∧ ¬ bornAndGoneSince r en.

Global Instance bornAndGoneSince_dec r en : Decision (bornAndGoneSince r en).
Proof. unfold bornAndGoneSince. apply _. Defined.

Global Instance reported_dec r en : Decision (reported r en).
Proof. unfold reported. apply _. Defined.

(** The maximum revno over all entries of the list, 0 if it is empty. *)
Definition maxRevno (a : allInfo) : Z :=
  foldr Z.max 0 (revno <$> entriesOf a).

(** ** Invariant of the waiting map *)

(** Every request waits in the chain of the watcher it comes from, as
    [handle] puts it there. *)
Definition chainsOwned (aw : allWatcher) : Prop :=
  ∀ w l, waiting aw !! w = Some l → Forall (λ r, req_w r = w) l.

(** The watcher object at an address, a new watcher where none was written
    yet. *)
Definition watcherAt (aw : allWatcher) (w : watcher) : xStateWatcher :=
  default zeroWatcher (watchers aw !! w).

(** The chain of a watcher after its head request was served: the watcher
    leaves the map with its last request. *)
Definition popped (rest : list allRequest) : option (list allRequest) :=
  match rest with
  | [] => None
  | _ :: _ => Some rest
  end.

(** The sends of a trace that are to requests of watcher [w]. *)
Definition sentTo (w : watcher) (tr : list (allRequest * bool))
  : list (allRequest * bool) :=
  filter (λ ev, req_w ev.1 = w) tr.

(** The watcher [w], whose chain is [req :: rest], was served by a pass that
    sent [new] and led from [aw] to [aw']: the one send to a request of [w]
    is [true] to the head [req], holding a non-empty list of changes; [w] is
    at [latestRevno]; [rest] is its chain now. *)
Definition servedHead (aw aw' : allWatcher) (new : list (allRequest * bool))
  (w : watcher) (req : allRequest) (rest : list allRequest) : Prop :=
  ∃ cs, cs ≠ [] ∧
    sentTo w new = [(set_changes cs req, true)] ∧
    waiting aw' !! w = popped rest ∧
    watcherAt aw' w =
      mkWatcher (latestRevno (all aw)) (w_stopped (watcherAt aw w)).

(** The watcher [w] was not served by the pass: nothing was sent to its
    requests, and its chain and revno are as they were. *)
Definition notServed (aw aw' : allWatcher) (new : list (allRequest * bool))
  (w : watcher) : Prop :=
  sentTo w new = [] ∧
  waiting aw' !! w = waiting aw !! w ∧
  watcherAt aw' w = watcherAt aw w.

(** ** The loop *)

(** The [for] of [loop] over the events its [select] receives, each with the
    order of the pass of [respond] that follows it.  [Some err] is the error
    [loop] returns; [None] is the loop blocked in [select], the events used
    up. *)
Fixpoint loopFor (evs : list (loopEvent * list watcher))
  : proc allWatcher (option error) :=
  match evs with
  | [] => mret None
  | (ev, ks) :: evs' =>
      r ← loopIteration ev ks;
      match r with
      | Some err => mret (Some err)
      | None => loopFor evs'
      end
  end.

(** [loop], from the call of the backing's [getAll], which is given as the
    procedure it is on [aw.all].  The subscription of the channel with
    [watch] and [unwatch] is the backing's own business. *)
Definition loop (getAll : proc allInfo (option error))
  (evs : list (loopEvent * list watcher)) : proc allWatcher (option error) :=
  err ← onAll getAll;
  match err with
  | Some e => mret (Some e)
  | None => loopFor evs
  end.

(** ** What the bookkeeping of reference counts may do *)

(** Two entries that differ in their reference count at most. *)
Definition sameButCount (en en' : entityEntry) : Prop :=
  revno en' = revno en ∧ creationRevno en' = creationRevno en ∧
  removed en' = removed en ∧ info en' = info en.

(** From [a] to [a'] reference counts were changed and elements unlinked,
    nothing else: [latestRevno] is the same, the list and the map lost
    members at most, no entry was made and none changed but in its count. *)
Record bookkeeps (a a' : allInfo) : Prop := mkBookkeeps {
  bk_latest : latestRevno a' = latestRevno a;
  bk_list : list_ a' `sublist_of` list_ a;
  bk_map : entities a' ⊆ entities a;
  bk_kept : ∀ e en, store a !! e = Some en →
            ∃ en', store a' !! e = Some en' ∧ sameButCount en en';
  bk_none_new : ∀ e, store a !! e = None → store a' !! e = None;
  bk_wf : wf a → wf a'
}.

(** The state of the allWatcher between two iterations of the loop. *)
Definition steady (aw : allWatcher) : Prop := wf (all aw) ∧ chainsOwned aw.

(** ** Further invariants of allInfo *)

(** Every element of the list is the value of an id of the map. *)
Definition indexed (a : allInfo) : Prop :=
  ∀ e, e ∈ list_ a → ∃ id, entities a !! id = Some e.

(** Reference counts are counts, and an entry of the list that is removed
    is still referred to. *)
Definition noGhost (a : allInfo) : Prop :=
  ∀ e en, e ∈ list_ a → store a !! e = Some en →
    0 ≤ refCount en ≤ maxInt64 ∧ (removed en = true → 0 < refCount en).

(** Revnos start at 1: no entry was created at revno 0 or before. *)
Definition bornLater (a : allInfo) : Prop :=
  ∀ e en, store a !! e = Some en → 0 < creationRevno en.

(** A mutation as the allWatcher makes it: [decRef] is called with the id
    under which the map holds the entry. *)
Definition consistent (m : mutation) (a : allInfo) : Prop :=
  match m with
  | DecRef entry id => entities a !! id = Some entry
  | _ => True
  end.

(** ** Changes of one entity since a revno *)

(** Nothing on the list changed after revno [r]. *)
Definition quietSince (r : Z) (a : allInfo) : Prop :=
  ∀ x, x ∈ list_ a → revnoAt a x ≤ r.

(** The one thing that changed after revno [r] is the entity [id], whose
    entry is at the front with information [i] and is to be reported. *)
Definition frontChange (r : Z) (id : entityId) (i : EntityInfo)
  (a : allInfo) : Prop :=
  ∃ el l en,
    list_ a = el :: l ∧ entities a !! id = Some el ∧
    store a !! el = Some en ∧ info en = i ∧
    (∀ x, x ∈ l → revnoAt a x ≤ r) ∧ reported r en.

(** ** The loops of seen and leave as rewritings of the entries *)

(** The store after the entries of the elements [l] were rewritten with
    [g], one after the other. *)
Fixpoint rewriteAll (g : entityEntry → entityEntry) (l : list elem)
  (st : gmap elem entityEntry) : gmap elem entityEntry :=
  match l with
  | [] => st
  | x :: l' =>
      rewriteAll g l'
        (match st !! x with
         | Some en => <[x := g en]> st
         | None => st
         end)
  end.

(** What [seen] does to an entry that a watcher at revno 0 is told of. *)
Definition counted (en : entityEntry) : entityEntry :=
  if removed en then en else set_refCount (incr64 (refCount en)) en.

(** What [leave] does to an entry that the watcher was told of and that is
    not removed, or removed with the watcher knowing. *)
Definition released (en : entityEntry) : entityEntry :=
  if removed en then en else set_refCount (decr64 (refCount en)) en.

(** * Properties *)

Ltac proc_unfold :=
  unfold mbind, proc_bind, bind, mret, proc_ret, ret, get, gets, modify,
    panic, outOfFuel, zoom in *.

(** ** Machine integers *)

Lemma wrap64_small z : - 2 ^ 63 ≤ z < 2 ^ 63 → wrap64 z = z.
Proof.
  intros Hz. unfold wrap64.
  rewrite Z.mod_small by lia. lia.
Qed.

Lemma incr64_small z : 0 ≤ z → z < maxInt64 → incr64 z = z + 1.
Proof.
  unfold incr64, maxInt64. intros ??. apply wrap64_small. lia.
Qed.

(** ** container/list *)

Lemma listRemove_elem_of e x l : x ∈ listRemove e l ↔ x ≠ e ∧ x ∈ l.
Proof. unfold listRemove. by rewrite list_elem_of_filter. Qed.

Lemma listRemove_notin e l : e ∉ l → listRemove e l = l.
Proof.
  unfold listRemove. induction l as [|x l IH]; [done|].
  rewrite not_elem_of_cons. intros [Hne Hnin].
  rewrite filter_cons_True by done. by rewrite IH.
Qed.

Lemma listRemove_head e l : e ∉ l → listRemove e (e :: l) = l.
Proof.
  intros Hnin. unfold listRemove.
  rewrite filter_cons_False by (by intros ?).
  by apply listRemove_notin.
Qed.

Lemma listRemove_sublist e l : listRemove e l `sublist_of` l.
Proof. apply sublist_filter. Qed.

Lemma listRemove_NoDup e l : NoDup l → NoDup (listRemove e l).
Proof. apply NoDup_filter. Qed.

Lemma listMoveToFront_elem_of e x l : x ∈ listMoveToFront e l ↔ x ∈ l.
Proof.
  unfold listMoveToFront. case_decide as He; [|done].
  rewrite elem_of_cons, listRemove_elem_of. split.
  - by intros [->|[_ ?]].
  - intros Hx. destruct (decide (x = e)); [by left|by right].
Qed.

Lemma listMoveToFront_NoDup e l : NoDup l → NoDup (listMoveToFront e l).
Proof.
  intros Hnd. unfold listMoveToFront. case_decide; [|done].
  apply NoDup_cons. split; [|by apply listRemove_NoDup].
  rewrite listRemove_elem_of. by intros [? _].
Qed.

Lemma StronglySorted_sublist {A : Type} (R : A → A → Prop) (l1 l2 : list A) :
  l1 `sublist_of` l2 → StronglySorted R l2 → StronglySorted R l1.
Proof.
  intros Hsub. induction Hsub as [|x l1 l2 Hsub IH|x l1 l2 Hsub IH].
  - done.
  - rewrite !StronglySorted_cons. intros [Hall Hs]. split; [|by apply IH].
    rewrite Forall_forall in Hall |- *.
    intros y Hy. apply Hall. by eapply elem_of_sublist.
  - rewrite StronglySorted_cons. intros [_ Hs]. by apply IH.
Qed.

Lemma StronglySorted_weaken {A : Type} (R R' : A → A → Prop) (l : list A) :
  (∀ x y, x ∈ l → y ∈ l → R x y → R' x y) →
  StronglySorted R l → StronglySorted R' l.
Proof.
  induction l as [|x l IH]; intros HR; [constructor|].
  rewrite !StronglySorted_cons. intros [Hall Hs]. split.
  - rewrite Forall_forall in Hall |- *. intros y Hy.
    apply HR; [left|by right|by apply Hall].
  - apply IH; [|done]. intros ?? Hx Hy. apply HR; by right.
Qed.

(** ** The shapes of a mutated allInfo *)

Lemma revnoAt_insert_ne a f e x :
  x ≠ e → revnoAt (set_store (insert e f) a) x = revnoAt a x.
Proof. intros Hne. unfold revnoAt. simpl. by rewrite lookup_insert_ne. Qed.

Lemma revnoAt_insert_eq a f e :
  revnoAt (set_store (insert e f) a) e = revno f.
Proof. unfold revnoAt. simpl. by rewrite lookup_insert_eq. Qed.

Lemma revnoAt_Some a e en : store a !! e = Some en → revnoAt a e = revno en.
Proof. unfold revnoAt. by intros ->. Qed.

(** A new element at the front, with a revno beyond all others. *)
Lemma wf_push a id en :
  wf a → latestRevno a < maxInt64 →
  entities a !! id = None →
  revno en = latestRevno a + 1 → creationRevno en ≤ revno en →
  let e := fresh (dom (store a)) in
  wf (mkAllInfo (latestRevno a + 1) (<[id := e]> (entities a))
        (e :: list_ a) (<[e := en]> (store a))).
Proof.
  intros Hwf Hmax Hid Hrev Hcre e.
  assert (He : store a !! e = None).
  { apply not_elem_of_dom. apply is_fresh. }
  assert (Hnin : e ∉ list_ a).
  { intros Hin. apply (wf_store _ Hwf) in Hin as [? Hin]. congruence. }
  pose proof (wf_latest _ Hwf).
  assert (Hother : ∀ x, x ∈ list_ a →
    from_option revno 0 (<[e := en]> (store a) !! x) = revnoAt a x).
  { intros x Hx. rewrite lookup_insert_ne; [done|]. by intros ->. }
  constructor; simpl.
  - lia.
  - apply NoDup_cons. split; [done|]. by apply wf_nodup.
  - intros x. rewrite elem_of_cons. intros [->|Hx].
    + rewrite lookup_insert_eq. eauto.
    + rewrite lookup_insert_ne by (by intros ->). by apply wf_store.
  - intros id' x. rewrite lookup_insert. case_decide as Hd.
    + intros [= <-]. left.
    + intros Hx. right. by eapply wf_map.
  - intros id1 id2 x. rewrite !lookup_insert.
    repeat case_decide; subst; try done.
    + intros [= <-] Hx. by apply (wf_map _ Hwf) in Hx.
    + intros Hx [= <-]. by apply (wf_map _ Hwf) in Hx.
    + by apply wf_inj.
  - apply StronglySorted_cons. split.
    + apply Forall_forall. intros x Hx. unfold revnoAt. simpl.
      rewrite lookup_insert_eq, Hother by done. simpl.
      pose proof (wf_bound _ Hwf x Hx). lia.
    + eapply StronglySorted_weaken; [|by apply wf_sorted].
      intros x y Hx Hy. unfold revnoAt at 3 4. simpl.
      by rewrite !Hother.
  - intros x. rewrite elem_of_cons. unfold revnoAt. simpl. intros [->|Hx].
    + rewrite lookup_insert_eq. simpl. lia.
    + rewrite Hother by done. pose proof (wf_bound _ Hwf x Hx). lia.
  - intros x en'. rewrite lookup_insert. case_decide.
    + by intros [= <-].
    + by apply wf_creation.
Qed.

(** An element of the list given a revno beyond all others and moved to the
    front. *)
Lemma wf_touch a el en :
  wf a → latestRevno a < maxInt64 →
  el ∈ list_ a →
  revno en = latestRevno a + 1 → creationRevno en ≤ revno en →
  wf (mkAllInfo (latestRevno a + 1) (entities a)
        (listMoveToFront el (list_ a)) (<[el := en]> (store a))).
Proof.
  intros Hwf Hmax Hel Hrev Hcre.
  pose proof (wf_latest _ Hwf).
  assert (Hother : ∀ x, x ≠ el →
    from_option revno 0 (<[el := en]> (store a) !! x) = revnoAt a x).
  { intros x Hx. by rewrite lookup_insert_ne. }
  constructor; simpl.
  - lia.
  - apply listMoveToFront_NoDup. by apply wf_nodup.
  - intros x. rewrite listMoveToFront_elem_of. intros Hx.
    rewrite lookup_insert. case_decide; [eauto|]. by apply wf_store.
  - intros id x Hx. rewrite listMoveToFront_elem_of. by eapply wf_map.
  - by apply wf_inj.
  - unfold listMoveToFront. rewrite decide_True by done.
    apply StronglySorted_cons. split.
    + apply Forall_forall. intros x. rewrite listRemove_elem_of.
      intros [Hne Hx]. unfold revnoAt. simpl.
      rewrite lookup_insert_eq, Hother by done. simpl.
      pose proof (wf_bound _ Hwf x Hx). lia.
    + eapply StronglySorted_weaken; cycle 1.
      * eapply StronglySorted_sublist;
          [apply listRemove_sublist|by apply wf_sorted].
      * intros x y. rewrite !listRemove_elem_of. intros [??] [??].
        unfold revnoAt at 3 4. simpl. by rewrite !Hother.
  - intros x. rewrite listMoveToFront_elem_of. intros Hx.
    unfold revnoAt. simpl. rewrite lookup_insert. case_decide; simpl.
    + lia.
    + pose proof (wf_bound _ Hwf x Hx). unfold revnoAt in *. lia.
  - intros x en'. rewrite lookup_insert. case_decide.
    + by intros [= <-].
    + by apply wf_creation.
Qed.

(** An element taken off the list and its id off the map; revnos are as
    they were and [latestRevno] is no smaller. *)
Lemma wf_drop a a' id el :
  wf a →
  entities a !! id = Some el →
  latestRevno a ≤ latestRevno a' →
  entities a' = delete id (entities a) →
  list_ a' = listRemove el (list_ a) →
  (∀ x, revnoAt a' x = revnoAt a x) →
  (∀ x, is_Some (store a !! x) → is_Some (store a' !! x)) →
  (∀ x en, store a' !! x = Some en → creationRevno en ≤ revno en) →
  wf a'.
Proof.
  intros Hwf Hid Hlat Hent Hlist Hrev Hst Hcre.
  pose proof (wf_latest _ Hwf).
  constructor; rewrite ?Hent, ?Hlist.
  - lia.
  - apply listRemove_NoDup. by apply wf_nodup.
  - intros x. rewrite listRemove_elem_of. intros [_ Hx].
    apply Hst. by apply wf_store.
  - intros id' x. rewrite lookup_delete. case_decide; [done|].
    intros Hx. rewrite listRemove_elem_of. split; [|by eapply wf_map].
    intros ->. by pose proof (wf_inj _ Hwf _ _ _ Hid Hx).
  - intros id1 id2 x. rewrite !lookup_delete.
    repeat case_decide; try done. by apply wf_inj.
  - eapply StronglySorted_weaken; cycle 1.
    + eapply StronglySorted_sublist;
        [apply listRemove_sublist|by apply wf_sorted].
    + intros x y _ _. by rewrite !Hrev.
  - intros x. rewrite listRemove_elem_of. intros [_ Hx].
    rewrite Hrev. pose proof (wf_bound _ Hwf x Hx). lia.
  - done.
Qed.

(** The entry of an element replaced by one of the same revno. *)
Lemma wf_rewrite a el en en' :
  wf a → store a !! el = Some en →
  revno en' = revno en → creationRevno en' = creationRevno en →
  wf (set_store (insert el en') a).
Proof.
  intros Hwf Hel Hrev Hcre.
  assert (Hsame : ∀ x, revnoAt (set_store (insert el en') a) x = revnoAt a x).
  { intros x. destruct (decide (x = el)) as [->|].
    - by rewrite revnoAt_insert_eq, (revnoAt_Some _ _ _ Hel).
    - by apply revnoAt_insert_ne. }
  constructor; simpl.
  - by apply wf_latest.
  - by apply wf_nodup.
  - intros x Hx. rewrite lookup_insert. case_decide; [eauto|].
    by apply wf_store.
  - by apply wf_map.
  - by apply wf_inj.
  - eapply StronglySorted_weaken; [|by apply wf_sorted].
    intros x y _ _. by rewrite !Hsame.
  - intros x Hx. rewrite Hsame. by apply wf_bound.
  - intros x en''. rewrite lookup_insert. case_decide.
    + intros [= <-]. rewrite Hrev, Hcre. by eapply wf_creation.
    + by apply wf_creation.
Qed.

Lemma wf_newAllInfo : wf newAllInfo.
Proof.
  constructor; simpl; try done; try (intros e He; by apply elem_of_nil in He).
  - apply NoDup_nil_2.
  - constructor.
Qed.

(** ** The methods of allInfo, case by case *)

Lemma add_fresh id i a :
  entities a !! id = None →
  let r := incr64 (latestRevno a) in
  let e := fresh (dom (store a)) in
  add id i a =
    (Ok tt, mkAllInfo r (<[id := e]> (entities a)) (e :: list_ a)
              (<[e := mkEntry r r false 0 i]> (store a))).
Proof.
  intros Hid. unfold add, pushFront. proc_unfold.
  rewrite decide_False; [done|]. rewrite Hid. by intros [??].
Qed.

Lemma add_duplicate id i a :
  is_Some (entities a !! id) →
  add id i a = (Panic "adding new entry with duplicate id", a).
Proof.
  intros Hid. unfold add. proc_unfold. by rewrite decide_True.
Qed.

Lemma delete_absent id a :
  entities a !! id = None → delete_ id a = (Ok tt, a).
Proof. intros Hid. unfold delete_. proc_unfold. by rewrite Hid. Qed.

Lemma delete_present id el a :
  entities a !! id = Some el →
  delete_ id a =
    (Ok tt, mkAllInfo (latestRevno a) (delete id (entities a))
              (listRemove el (list_ a)) (store a)).
Proof. intros Hid. unfold delete_. proc_unfold. by rewrite Hid. Qed.

Lemma markRemoved_absent id a :
  entities a !! id = None → markRemoved id a = (Ok tt, a).
Proof. intros Hid. unfold markRemoved. proc_unfold. by rewrite Hid. Qed.

Lemma markRemoved_removed id el en a :
  entities a !! id = Some el → store a !! el = Some en → removed en = true →
  markRemoved id a = (Ok tt, a).
Proof.
  intros Hid Hel Hrem. unfold markRemoved, readEntry. proc_unfold.
  by rewrite Hid, Hel, Hrem.
Qed.

Lemma markRemoved_unseen id el en a :
  entities a !! id = Some el → store a !! el = Some en →
  removed en = false → refCount en = 0 →
  markRemoved id a =
    (Ok tt, mkAllInfo (incr64 (latestRevno a)) (delete id (entities a))
              (listRemove el (list_ a)) (store a)).
Proof.
  intros Hid Hel Hrem Hcount. unfold markRemoved, readEntry. proc_unfold.
  rewrite Hid, Hel, Hrem. simpl. rewrite decide_True by done.
  unfold delete_. proc_unfold. simpl. by rewrite Hid.
Qed.

Lemma markRemoved_seen id el en a :
  entities a !! id = Some el → store a !! el = Some en →
  removed en = false → refCount en ≠ 0 →
  let r := incr64 (latestRevno a) in
  markRemoved id a =
    (Ok tt, mkAllInfo r (entities a) (listMoveToFront el (list_ a))
              (<[el := set_removed true (set_revno r en)]> (store a))).
Proof.
  intros Hid Hel Hrem Hcount. unfold markRemoved, readEntry. proc_unfold.
  rewrite Hid, Hel, Hrem. simpl. by rewrite decide_False by done.
Qed.

Lemma update_absent id i a :
  entities a !! id = None → update id i a = add id i a.
Proof. intros Hid. unfold update. proc_unfold. by rewrite Hid. Qed.

Lemma update_same id i el en a :
  entities a !! id = Some el → store a !! el = Some en → i = info en →
  update id i a = (Ok tt, a).
Proof.
  intros Hid Hel Hi. unfold update, readEntry. proc_unfold.
  rewrite Hid, Hel. by rewrite decide_True.
Qed.

Lemma update_changed id i el en a :
  entities a !! id = Some el → store a !! el = Some en → i ≠ info en →
  let r := incr64 (latestRevno a) in
  update id i a =
    (Ok tt, mkAllInfo r (entities a) (listMoveToFront el (list_ a))
              (<[el := set_info i (set_revno r en)]> (store a))).
Proof.
  intros Hid Hel Hi. unfold update, readEntry. proc_unfold.
  rewrite Hid, Hel. by rewrite decide_False.
Qed.

Lemma decRef_positive entry id en a :
  store a !! entry = Some en → 0 < decr64 (refCount en) →
  decRef entry id a = (Ok tt, decremented a entry en).
Proof.
  intros Hen Hc. unfold decRef, readEntry, writeEntry. proc_unfold.
  rewrite Hen. by rewrite decide_True.
Qed.

Lemma decRef_negative entry id en a :
  store a !! entry = Some en → decr64 (refCount en) < 0 →
  decRef entry id a =
    (Panic "negative reference count", decremented a entry en).
Proof.
  intros Hen Hc. unfold decRef, readEntry, writeEntry. proc_unfold.
  rewrite Hen. rewrite decide_False by lia. by rewrite decide_True.
Qed.

Lemma decRef_live entry id en a :
  store a !! entry = Some en → decr64 (refCount en) = 0 →
  removed en = false →
  decRef entry id a = (Ok tt, decremented a entry en).
Proof.
  intros Hen Hc Hrem. unfold decRef, readEntry, writeEntry. proc_unfold.
  rewrite Hen. simpl. unfold decremented. rewrite Hc, Hrem.
  rewrite !decide_False by lia. reflexivity.
Qed.

Lemma decRef_missing entry id en a :
  store a !! entry = Some en → decr64 (refCount en) = 0 →
  removed en = true → entities a !! id = None →
  decRef entry id a =
    (Panic "delete of non-existent entry", decremented a entry en).
Proof.
  intros Hen Hc Hrem Hid. unfold decRef, readEntry, writeEntry. proc_unfold.
  rewrite Hen. simpl. unfold decremented. rewrite Hc, Hrem.
  rewrite !decide_False by lia. simpl.
  by rewrite Hid.
Qed.

Lemma decRef_last entry id en el a :
  store a !! entry = Some en → decr64 (refCount en) = 0 →
  removed en = true → entities a !! id = Some el →
  decRef entry id a =
    (Ok tt, mkAllInfo (latestRevno a) (delete id (entities a))
              (listRemove el (list_ a))
              (<[entry := set_refCount 0 en]> (store a))).
Proof.
  intros Hen Hc Hrem Hid. unfold decRef, readEntry, writeEntry. proc_unfold.
  rewrite Hen. simpl. unfold decremented. rewrite Hc, Hrem.
  rewrite !decide_False by lia. simpl.
  by rewrite Hid.
Qed.

Lemma decRef_dangling entry id a :
  store a !! entry = None → decRef entry id a = (Panic nilDereference, a).
Proof.
  intros Hen. unfold decRef, readEntry. proc_unfold. by rewrite Hen.
Qed.

(** ** The invariant is kept *)

Lemma add_wf id i a a' :
  wf a → latestRevno a < maxInt64 → add id i a = (Ok tt, a') → wf a'.
Proof.
  intros Hwf Hmax Hadd.
  destruct (entities a !! id) as [el|] eqn:Hid.
  { rewrite add_duplicate in Hadd by eauto. discriminate. }
  rewrite add_fresh in Hadd by done.
  injection Hadd as <-.
  rewrite incr64_small by (done || by apply wf_latest).
  by apply wf_push.
Qed.

Lemma markRemoved_wf id a a' :
  wf a → latestRevno a < maxInt64 → markRemoved id a = (Ok tt, a') → wf a'.
Proof.
  intros Hwf Hmax Hrun.
  pose proof (wf_latest _ Hwf) as Hlat.
  destruct (entities a !! id) as [el|] eqn:Hid; cycle 1.
  { rewrite markRemoved_absent in Hrun by done. by injection Hrun as <-. }
  assert (Hel : el ∈ list_ a) by (by eapply wf_map).
  destruct (wf_store _ Hwf _ Hel) as [en Hen].
  destruct (removed en) eqn:Hrem.
  { erewrite markRemoved_removed in Hrun by done. by injection Hrun as <-. }
  destruct (decide (refCount en = 0)) as [Hc|Hc].
  - erewrite markRemoved_unseen in Hrun by done. injection Hrun as <-.
    eapply wf_drop; try done; simpl.
    + rewrite incr64_small by done. lia.
    + by apply wf_creation.
  - erewrite markRemoved_seen in Hrun by done. injection Hrun as <-.
    rewrite incr64_small by done. apply wf_touch; try done. simpl.
    pose proof (wf_creation _ Hwf _ _ Hen).
    pose proof (wf_bound _ Hwf _ Hel) as Hb.
    rewrite (revnoAt_Some _ _ _ Hen) in Hb. lia.
Qed.

Lemma update_wf id i a a' :
  wf a → latestRevno a < maxInt64 → update id i a = (Ok tt, a') → wf a'.
Proof.
  intros Hwf Hmax Hrun.
  pose proof (wf_latest _ Hwf) as Hlat.
  destruct (entities a !! id) as [el|] eqn:Hid; cycle 1.
  { rewrite update_absent in Hrun by done. by eapply add_wf. }
  assert (Hel : el ∈ list_ a) by (by eapply wf_map).
  destruct (wf_store _ Hwf _ Hel) as [en Hen].
  destruct (decide (i = info en)) as [Hi|Hi].
  { erewrite update_same in Hrun by done. by injection Hrun as <-. }
  erewrite update_changed in Hrun by done. injection Hrun as <-.
  rewrite incr64_small by done. apply wf_touch; try done. simpl.
  pose proof (wf_creation _ Hwf _ _ Hen).
  pose proof (wf_bound _ Hwf _ Hel) as Hb.
  rewrite (revnoAt_Some _ _ _ Hen) in Hb. lia.
Qed.

Lemma decRef_wf entry id a a' :
  wf a → decRef entry id a = (Ok tt, a') → wf a'.
Proof.
  intros Hwf Hrun.
  destruct (store a !! entry) as [en|] eqn:Hen; cycle 1.
  { by rewrite decRef_dangling in Hrun. }
  destruct (decide (0 < decr64 (refCount en))) as [Hpos|Hpos].
  { erewrite decRef_positive in Hrun by done. injection Hrun as <-.
    by eapply wf_rewrite. }
  destruct (decide (decr64 (refCount en) < 0)) as [Hneg|Hneg].
  { by erewrite decRef_negative in Hrun. }
  assert (Hc : decr64 (refCount en) = 0) by lia.
  destruct (removed en) eqn:Hrem; cycle 1.
  { erewrite decRef_live in Hrun by done. injection Hrun as <-.
    by eapply wf_rewrite. }
  destruct (entities a !! id) as [el|] eqn:Hid; cycle 1.
  { by erewrite decRef_missing in Hrun. }
  erewrite decRef_last in Hrun by done. injection Hrun as <-.
  eapply wf_drop; try done; simpl; try done.
  - intros x. unfold revnoAt. simpl. rewrite lookup_insert.
    case_decide; [subst; by rewrite Hen|done].
  - intros x Hx. rewrite lookup_insert. case_decide; eauto.
  - intros x en'. rewrite lookup_insert. case_decide.
    + intros [= <-]. simpl. by eapply wf_creation.
    + by apply wf_creation.
Qed.

(** Every mutation that returns leaves a well-formed allInfo well-formed. *)
Lemma mutate_wf m a a' :
  wf a → latestRevno a < maxInt64 → mutate m a = (Ok tt, a') → wf a'.
Proof.
  destruct m; simpl; eauto using add_wf, update_wf, markRemoved_wf, decRef_wf.
Qed.

(** Every allInfo the code can build is well-formed. *)
Lemma reachable_wf a : reachable a → wf a.
Proof.
  induction 1 as [|m a a' _ IH Hmax Hrun|e en a _ IH Hen].
  - apply wf_newAllInfo.
  - by eapply mutate_wf.
  - by eapply wf_rewrite.
Qed.

(** ** changesSince *)

Lemma filter_none {A : Type} (P : A → Prop) `{!∀ x, Decision (P x)}
  (l : list A) : Forall (λ x, ¬ P x) l → filter P l = [].
Proof.
  induction 1 as [|x l Hx Hl IH]; [done|]. by rewrite filter_cons_False.
Qed.

Lemma omap_reverse {A B : Type} (f : A → option B) (l : list A) :
  omap f (reverse l) = reverse (omap f l).
Proof.
  induction l as [|x l IH]; [done|].
  rewrite reverse_cons, omap_app, IH. simpl.
  destruct (f x); simpl; [by rewrite reverse_cons|by rewrite app_nil_r].
Qed.

Lemma omap_cons_Some {A B : Type} (f : A → option B) x y (l : list A) :
  f x = Some y → omap f (x :: l) = y :: omap f l.
Proof. intros Hx. simpl. by rewrite Hx. Qed.

Lemma StronglySorted_reverse {A : Type} (R : A → A → Prop) (l : list A) :
  StronglySorted R l → StronglySorted (flip R) (reverse l).
Proof.
  induction 1 as [|x l Hs IH Hall]; [constructor|].
  rewrite reverse_cons. apply StronglySorted_app. split_and!.
  - intros y z Hy Hz. apply list_elem_of_singleton in Hz as ->.
    rewrite Forall_forall in Hall. apply Hall. by apply elem_of_reverse.
  - done.
  - repeat constructor.
Qed.

Lemma countNewer_state r l a : (countNewer r l a).2 = a.
Proof.
  induction l as [|e l IH]; [done|].
  simpl. unfold readEntry. proc_unfold.
  destruct (store a !! e) as [en|]; [|done].
  case_decide; [done|].
  destruct (countNewer r l a) as [[n| |] a'] eqn:Hrun; simpl in *; by subst.
Qed.

Lemma collectChanges_state r l a : (collectChanges r l a).2 = a.
Proof.
  induction l as [|e l IH]; [done|].
  simpl. unfold readEntry. proc_unfold.
  destruct (store a !! e) as [en|]; [|done].
  destruct (removed en && bool_decide (creationRevno en > r)); [done|].
  destruct (collectChanges r l a) as [[n| |] a'] eqn:Hrun; simpl in *; by subst.
Qed.

Lemma changesSince_state r a : (changesSince r a).2 = a.
Proof.
  unfold changesSince. proc_unfold.
  pose proof (countNewer_state r (list_ a) a) as Hcount.
  destruct (countNewer r (list_ a) a) as [[n| |] a'];
    simpl in *; subst; try done.
  apply collectChanges_state.
Qed.

(** On a list sorted by decreasing revno, the first loop stops exactly past
    the elements newer than [r]. *)
Lemma countNewer_sorted r l a :
  (∀ e, e ∈ l → is_Some (store a !! e)) →
  StronglySorted (λ e1 e2, revnoAt a e1 > revnoAt a e2) l →
  ∃ n, countNewer r l a = (Ok n, a) ∧
       take n l = filter (λ e, revnoAt a e > r) l.
Proof.
  induction l as [|e l IH]; intros Hst Hsort.
  { by exists 0%nat. }
  apply StronglySorted_cons in Hsort as [Hall Hsort].
  destruct (Hst e) as [en Hen]; [left|].
  simpl. unfold readEntry. proc_unfold. rewrite Hen.
  pose proof (revnoAt_Some _ _ _ Hen) as Hrev.
  case_decide as Hle.
  - exists 0%nat. split; [done|]. simpl.
    rewrite filter_cons_False by lia.
    symmetry. apply filter_none.
    eapply Forall_impl; [exact Hall|]. simpl. intros x Hx. lia.
  - destruct IH as (n & Hrun & Htake); [by intros; apply Hst; right|done|].
    exists (S n). rewrite Hrun. split; [done|]. simpl.
    rewrite filter_cons_True by lia. by rewrite Htake.
Qed.

Lemma collectChanges_stored r l a :
  (∀ e, e ∈ l → is_Some (store a !! e)) →
  collectChanges r l a =
    (Ok (toDelta <$> filter (λ en, ¬ bornAndGoneSince r en)
                       (omap (λ e, store a !! e) l)), a).
Proof.
  induction l as [|e l IH]; intros Hst; [done|].
  destruct (Hst e) as [en Hen]; [left|].
  specialize (IH (λ x Hx, Hst x (list_elem_of_further _ _ _ Hx))).
  simpl. unfold readEntry. proc_unfold. rewrite Hen.
  destruct (removed en && bool_decide (creationRevno en > r)) eqn:Hskip;
    simpl; rewrite IH.
  - apply andb_true_iff in Hskip as [Hrem Hcre].
    apply bool_decide_eq_true in Hcre.
    rewrite filter_cons_False; [done|].
    intros Hn. by apply Hn.
  - rewrite filter_cons_True; [done|].
    intros [Hrem Hcre]. rewrite Hrem in Hskip. simpl in Hskip.
    by apply bool_decide_eq_false in Hskip.
Qed.

Lemma omap_filter_newer r (l : list elem) a :
  (∀ e, e ∈ l → is_Some (store a !! e)) →
  omap (λ e, store a !! e) (filter (λ e, revnoAt a e > r) l) =
  filter (λ en, revno en > r) (omap (λ e, store a !! e) l).
Proof.
  induction l as [|e l IH]; intros Hst; [done|].
  destruct (Hst e) as [en Hen]; [left|].
  pose proof (revnoAt_Some _ _ _ Hen) as Hrev.
  specialize (IH (λ x Hx, Hst x (list_elem_of_further _ _ _ Hx))).
  rewrite (omap_cons_Some _ e en) by done.
  rewrite !filter_cons, Hrev.
  case_decide; [rewrite (omap_cons_Some _ e en) by done|]; by rewrite IH.
Qed.

Lemma entriesOf_sorted a :
  wf a → StronglySorted (λ x y, revno x > revno y) (entriesOf a).
Proof.
  intros Hwf. unfold entriesOf.
  pose proof (wf_store _ Hwf) as Hst. pose proof (wf_sorted _ Hwf) as Hsort.
  induction (list_ a) as [|e l IH]; [constructor|].
  apply StronglySorted_cons in Hsort as [Hall Hsort].
  destruct (Hst e) as [en Hen]; [left|].
  simpl. rewrite Hen. apply StronglySorted_cons. split.
  - apply Forall_forall. intros y Hy.
    apply list_elem_of_omap in Hy as (x & Hx & Hy).
    rewrite Forall_forall in Hall. specialize (Hall x Hx).
    by rewrite (revnoAt_Some _ _ _ Hen), (revnoAt_Some _ _ _ Hy) in Hall.
  - apply IH; [|done]. intros; apply Hst; by right.
Qed.

Lemma changesSince_wf r a :
  wf a →
  changesSince r a =
    (Ok (toDelta <$> reverse (filter (reported r) (entriesOf a))), a).
Proof.
  intros Hwf. unfold changesSince. proc_unfold.
  destruct (countNewer_sorted r (list_ a) a) as (n & -> & Htake);
    [by apply wf_store|by apply wf_sorted|].
  rewrite collectChanges_stored; cycle 1.
  { intros e. rewrite elem_of_reverse. intros He.
    apply (wf_store _ Hwf). by eapply subseteq_take. }
  do 3 f_equal.
  rewrite Htake, omap_reverse, filter_reverse. f_equal.
  rewrite omap_filter_newer by (by apply wf_store).
  rewrite list_filter_filter. apply list_filter_iff.
  intros en. unfold reported. tauto.
Qed.
(** ** markRemoved and update return on a well-formed allInfo *)

Lemma wf_lookup a id el :
  wf a → entities a !! id = Some el →
  el ∈ list_ a ∧ ∃ en, store a !! el = Some en.
Proof.
  intros Hwf Hid.
  assert (Hel : el ∈ list_ a) by (by eapply wf_map).
  split; [done|]. by apply wf_store.
Qed.

Lemma markRemoved_total id a : wf a → ∃ a', markRemoved id a = (Ok tt, a').
Proof.
  intros Hwf.
  destruct (entities a !! id) as [el|] eqn:Hid; cycle 1.
  { rewrite markRemoved_absent by done. eauto. }
  destruct (wf_lookup _ _ _ Hwf Hid) as [_ [en Hen]].
  destruct (removed en) eqn:Hrem.
  { erewrite markRemoved_removed by done. eauto. }
  destruct (decide (refCount en = 0)).
  - erewrite markRemoved_unseen by done. eauto.
  - erewrite markRemoved_seen by done. eauto.
Qed.

Lemma update_total id i a : wf a → ∃ a', update id i a = (Ok tt, a').
Proof.
  intros Hwf.
  destruct (entities a !! id) as [el|] eqn:Hid; cycle 1.
  { rewrite update_absent, add_fresh by done. eauto. }
  destruct (wf_lookup _ _ _ Hwf Hid) as [_ [en Hen]].
  destruct (decide (i = info en)).
  - erewrite update_same by done. eauto.
  - erewrite update_changed by done. eauto.
Qed.

(** ** The specification of allInfo, clause by clause *)

(** C10.  [changesSince] is read-only: whatever the allInfo and the revno,
    the call leaves the allInfo as it was: [latestRevno], the map from ids
    to elements, the list and its order, and every entry are the same
    before and after. *)
Theorem changesSince_read_only r a :
  let a' := (changesSince r a).2 in
  a' = a ∧
  latestRevno a' = latestRevno a ∧
  entities a' = entities a ∧
  list_ a' = list_ a ∧
  store a' = store a ∧
  ∀ i, entryAt a' i = entryAt a i.
Proof.
  intros a'. unfold a'. rewrite changesSince_state. by repeat split.
Qed.

(** C4.  On a well-formed allInfo, [changesSince r] returns one delta for
    each entry of the list with [revno > r] that is not both removed and
    created after [r], oldest change first (revnos increase strictly along
    the result), each delta made of the [removed] flag and the [info] of its
    entry. *)
Theorem changesSince_reports r a :
  wf a →
  let ens := reverse (filter (reported r) (entriesOf a)) in
  changesSince r a = (Ok (toDelta <$> ens), a) ∧
  StronglySorted (λ x y, revno x < revno y) ens ∧
  ∀ en, en ∈ ens ↔
    en ∈ entriesOf a ∧ revno en > r ∧
    ¬ (removed en = true ∧ creationRevno en > r).
Proof.
  intros Hwf ens. split_and!.
  - by apply changesSince_wf.
  - eapply StronglySorted_weaken; cycle 1.
    + apply StronglySorted_reverse.
      eapply StronglySorted_sublist;
        [apply sublist_filter|by apply entriesOf_sorted].
    + intros x y _ _. unfold flip. lia.
  - intros en. unfold ens.
    rewrite elem_of_reverse, list_elem_of_filter.
    unfold reported, bornAndGoneSince. tauto.
Qed.

(** C5.  [markRemoved id] returns with the allInfo unchanged when [id] is
    absent or its entry is already removed.  Otherwise it increments
    [latestRevno] and then: if the entry's [refCount] is 0, the id is taken
    off the map and the element off the list, nothing else changing; else
    the entry gets [removed = true] and the new [latestRevno] as its revno,
    and its element is moved to the front of the list. *)
Theorem markRemoved_cases id a :
  wf a → latestRevno a < maxInt64 →
  ∃ a', markRemoved id a = (Ok tt, a') ∧
    match entities a !! id with
    | None => a' = a
    | Some el => ∃ en, store a !! el = Some en ∧
        if removed en then a' = a
        else
          latestRevno a' = latestRevno a + 1 ∧
          if decide (refCount en = 0) then
            entities a' = delete id (entities a) ∧
            list_ a' = listRemove el (list_ a) ∧
            store a' = store a ∧
            entities a' !! id = None ∧ el ∉ list_ a'
          else
            entities a' = entities a ∧
            list_ a' = el :: listRemove el (list_ a) ∧
            store a' =
              <[el := mkEntry (latestRevno a + 1) (creationRevno en) true
                        (refCount en) (info en)]> (store a)
    end.
Proof.
  intros Hwf Hmax. pose proof (wf_latest _ Hwf) as Hlat.
  destruct (entities a !! id) as [el|] eqn:Hid; cycle 1.
  { rewrite markRemoved_absent by done. eauto. }
  destruct (wf_lookup _ _ _ Hwf Hid) as [Hel [en Hen]].
  destruct (removed en) eqn:Hrem.
  { erewrite markRemoved_removed by done.
    eexists. split; [done|]. exists en. by rewrite Hrem. }
  destruct (decide (refCount en = 0)) as [Hc|Hc].
  - erewrite markRemoved_unseen by done.
    eexists. split; [done|]. exists en. rewrite Hrem, decide_True by done.
    simpl. rewrite incr64_small by done. split_and!; try done.
    + apply lookup_delete_eq.
    + rewrite listRemove_elem_of. by intros [? _].
  - erewrite markRemoved_seen by done.
    eexists. split; [done|]. exists en. rewrite Hrem, decide_False by done.
    simpl. rewrite incr64_small by done. split_and!; try done.
    unfold listMoveToFront. by rewrite decide_True.
Qed.

(** C3, as the code has it.  [add] with an id already present panics;
    [decRef] panics when the decrement makes the count negative, and when
    the count of a removed entry reaches zero while its id is not in the
    map ("delete of non-existent entry").  [delete] of an id that is not
    present returns, leaving the allInfo as it was. *)
Theorem precondition_violations id i entry en a :
  (is_Some (entities a !! id) →
   (add id i a).1 = Panic "adding new entry with duplicate id") ∧
  (store a !! entry = Some en → decr64 (refCount en) < 0 →
   (decRef entry id a).1 = Panic "negative reference count") ∧
  (store a !! entry = Some en → decr64 (refCount en) = 0 →
   removed en = true → entities a !! id = None →
   (decRef entry id a).1 = Panic "delete of non-existent entry") ∧
  (entities a !! id = None → delete_ id a = (Ok tt, a)).
Proof.
  split_and!.
  - intros Hid. by rewrite add_duplicate.
  - intros Hen Hc. by erewrite decRef_negative.
  - intros Hen Hc Hrem Hid. by erewrite decRef_missing.
  - apply delete_absent.
Qed.

(** C9.  [changed id] fetches the entity from the backing: when the fetch
    reports not-found it calls [markRemoved id] and returns no error; when
    the fetch returns another error it returns that error, with which the
    iteration of the loop returns, ending the loop; otherwise it calls
    [update id info] and returns no error. *)
Theorem changed_cases id aw :
  wf (all aw) →
  match fetch (backing aw) id with
  | inr ErrNotFound =>
      ∃ a', markRemoved id (all aw) = (Ok tt, a') ∧
            changed id aw = (Ok None, set_all a' aw)
  | inr err =>
      changed id aw = (Ok (Some err), aw) ∧
      ∀ ks, loopIteration (Change (collection id) (id_ id)) ks aw =
              (Ok (Some err), aw)
  | inl i =>
      ∃ a', update id i (all aw) = (Ok tt, a') ∧
            changed id aw = (Ok None, set_all a' aw)
  end.
Proof.
  intros Hwf.
  assert (Hother : ∀ err, fetch (backing aw) id = inr err →
    err ≠ ErrNotFound →
    changed id aw = (Ok (Some err), aw) ∧
    ∀ ks, loopIteration (Change (collection id) (id_ id)) ks aw =
            (Ok (Some err), aw)).
  { intros err Hf Hne.
    assert (Hch : changed id aw = (Ok (Some err), aw)).
    { unfold changed. proc_unfold. rewrite Hf. by destruct err. }
    split; [done|]. intros ks. unfold loopIteration.
    destruct id as [c k]. simpl. proc_unfold.
    change (bind ?k ?m ?s) with (bind k m s).
    by rewrite Hch. }
  destruct (fetch (backing aw) id) as [i|err] eqn:Hf.
  - destruct (update_total id i (all aw) Hwf) as [a' Hrun].
    exists a'. split; [done|].
    unfold changed, onAll. proc_unfold. by rewrite Hf, Hrun.
  - destruct err; try (by apply Hother).
    destruct (markRemoved_total id (all aw) Hwf) as [a' Hrun].
    exists a'. split; [done|].
    unfold changed, onAll. proc_unfold. by rewrite Hf, Hrun.
Qed.

(** ** Order and bound of the revnos *)

Lemma StronglySorted_lookup {A : Type} (R : A → A → Prop) (l : list A)
  (i j : nat) x y :
  StronglySorted R l → (i < j)%nat →
  l !! i = Some x → l !! j = Some y → R x y.
Proof.
  intros Hs. revert i j. induction Hs as [|z l Hs IH Hall]; intros i j Hij.
  { by rewrite lookup_nil. }
  destruct j as [|j]; [lia|]. destruct i as [|i]; simpl.
  - intros [= <-] Hy. rewrite Forall_forall in Hall.
    apply Hall. by eapply list_elem_of_lookup_2.
  - apply IH. lia.
Qed.

Lemma entryAt_Some a i en :
  entryAt a i = Some en ↔
  ∃ e, list_ a !! i = Some e ∧ store a !! e = Some en.
Proof.
  unfold entryAt. destruct (list_ a !! i) as [e|]; simpl.
  - split; [eauto|]. by intros (? & [= <-] & ?).
  - split; [done|]. by intros (? & ? & ?).
Qed.

Lemma wf_entryAt_lt a i j x y :
  wf a → (i < j)%nat → entryAt a i = Some x → entryAt a j = Some y →
  revno x > revno y.
Proof.
  intros Hwf Hij (e1 & Hi & H1)%entryAt_Some (e2 & Hj & H2)%entryAt_Some.
  pose proof (StronglySorted_lookup _ _ i j e1 e2 (wf_sorted _ Hwf) Hij Hi Hj)
    as Hlt.
  simpl in Hlt.
  by rewrite (revnoAt_Some _ _ _ H1), (revnoAt_Some _ _ _ H2) in Hlt.
Qed.

Lemma elem_of_entriesOf a en :
  en ∈ entriesOf a ↔ ∃ e, e ∈ list_ a ∧ store a !! e = Some en.
Proof. unfold entriesOf. apply list_elem_of_omap. Qed.

Lemma wf_entries_bound a en :
  wf a → en ∈ entriesOf a → revno en ≤ latestRevno a.
Proof.
  intros Hwf (e & He & Hen)%elem_of_entriesOf.
  pose proof (wf_bound _ Hwf e He) as Hb.
  by rewrite (revnoAt_Some _ _ _ Hen) in Hb.
Qed.

Lemma foldr_max_le (l : list Z) (b : Z) :
  0 ≤ b → Forall (λ z, z ≤ b) l → foldr Z.max 0 l ≤ b.
Proof. intros Hb. induction 1; simpl; lia. Qed.

Lemma maxRevno_le a : wf a → maxRevno a ≤ latestRevno a.
Proof.
  intros Hwf. unfold maxRevno.
  apply foldr_max_le; [by apply wf_latest|].
  apply Forall_forall. intros z (en & -> & Hen)%list_elem_of_fmap.
  by apply wf_entries_bound.
Qed.

Lemma maxRevno_stamped a : wf a → stamped a → maxRevno a = latestRevno a.
Proof.
  intros Hwf (e & l & en & Hl & Hen & Hrev).
  pose proof (maxRevno_le a Hwf) as Hle.
  unfold maxRevno, entriesOf in *. rewrite Hl in *.
  rewrite (omap_cons_Some _ e en) in * by done.
  rewrite fmap_cons in *. simpl in *. lia.
Qed.

(** What a mutation that returns does to [latestRevno] and to the list: it
    keeps [latestRevno], or advances it by one and either stamps the front
    entry with it or takes an element off the list. *)
Lemma mutate_cases m a a' :
  wf a → latestRevno a < maxInt64 → mutate m a = (Ok tt, a') →
  latestRevno a' = latestRevno a ∨
  latestRevno a' = latestRevno a + 1 ∧
    (stamped a' ∨ (length (list_ a') < length (list_ a))%nat).
Proof.
  intros Hwf Hmax Hrun. pose proof (wf_latest _ Hwf) as Hlat.
  assert (Hadd : ∀ id i, add id i a = (Ok tt, a') →
    latestRevno a' = latestRevno a + 1 ∧
    (stamped a' ∨ (length (list_ a') < length (list_ a))%nat)).
  { intros id i Hadd.
    destruct (entities a !! id) as [el|] eqn:Hid.
    { rewrite add_duplicate in Hadd by eauto. discriminate. }
    rewrite add_fresh in Hadd by done. injection Hadd as <-. simpl.
    rewrite incr64_small by done. split; [done|]. left.
    eexists _, _, _. simpl. split_and!; [done|apply lookup_insert_eq|done]. }
  destruct m as [id i|id i|id|entry id]; simpl in Hrun.
  - right. by eapply Hadd.
  - destruct (entities a !! id) as [el|] eqn:Hid; cycle 1.
    { rewrite update_absent in Hrun by done. right. by eapply Hadd. }
    destruct (wf_lookup _ _ _ Hwf Hid) as [Hel [en Hen]].
    destruct (decide (i = info en)) as [Hi|Hi].
    { erewrite update_same in Hrun by done. injection Hrun as <-. by left. }
    erewrite update_changed in Hrun by done. injection Hrun as <-. simpl.
    rewrite incr64_small by done. right. split; [done|]. left.
    unfold listMoveToFront. rewrite decide_True by done.
    eexists _, _, _. simpl. split_and!; [done|apply lookup_insert_eq|done].
  - destruct (entities a !! id) as [el|] eqn:Hid; cycle 1.
    { rewrite markRemoved_absent in Hrun by done.
      injection Hrun as <-. by left. }
    destruct (wf_lookup _ _ _ Hwf Hid) as [Hel [en Hen]].
    destruct (removed en) eqn:Hrem.
    { erewrite markRemoved_removed in Hrun by done.
      injection Hrun as <-. by left. }
    right. destruct (decide (refCount en = 0)) as [Hc|Hc].
    + erewrite markRemoved_unseen in Hrun by done. injection Hrun as <-.
      simpl. rewrite incr64_small by done. split; [done|]. right.
      unfold listRemove. eapply length_filter_lt; [exact Hel|]. by intros ?.
    + erewrite markRemoved_seen in Hrun by done. injection Hrun as <-.
      simpl. rewrite incr64_small by done. split; [done|]. left.
      unfold listMoveToFront. rewrite decide_True by done.
      eexists _, _, _. simpl. split_and!; [done|apply lookup_insert_eq|done].
  - left.
    destruct (store a !! entry) as [en|] eqn:Hen; cycle 1.
    { by rewrite decRef_dangling in Hrun. }
    destruct (decide (0 < decr64 (refCount en))) as [Hpos|Hpos].
    { erewrite decRef_positive in Hrun by done. by injection Hrun as <-. }
    destruct (decide (decr64 (refCount en) < 0)) as [Hneg|Hneg].
    { by erewrite decRef_negative in Hrun. }
    assert (Hc : decr64 (refCount en) = 0) by lia.
    destruct (removed en) eqn:Hrem; cycle 1.
    { erewrite decRef_live in Hrun by done. by injection Hrun as <-. }
    destruct (entities a !! id) as [el|] eqn:Hid; cycle 1.
    { by erewrite decRef_missing in Hrun. }
    erewrite decRef_last in Hrun by done. by injection Hrun as <-.
Qed.

(** C2, as the code has it.  After every mutation of a well-formed allInfo
    that returns (add, update, markRemoved, decRef), [latestRevno] is at
    least the maximum revno over the entries still held in the list (at
    least 0 when the list is empty), and no entry has a greater revno.  It
    equals that maximum whenever the mutation advanced [latestRevno] without
    taking an entry off the list. *)
Theorem latestRevno_bounds_revnos m a a' :
  wf a → latestRevno a < maxInt64 → mutate m a = (Ok tt, a') →
  maxRevno a' ≤ latestRevno a' ∧
  (∀ i en, entryAt a' i = Some en → revno en ≤ latestRevno a') ∧
  (latestRevno a < latestRevno a' →
   (length (list_ a) ≤ length (list_ a'))%nat →
   latestRevno a' = maxRevno a').
Proof.
  intros Hwf Hmax Hrun.
  pose proof (mutate_wf _ _ _ Hwf Hmax Hrun) as Hwf'.
  split_and!.
  - by apply maxRevno_le.
  - intros i en (e & Hi & Hen)%entryAt_Some.
    apply wf_entries_bound; [done|]. apply elem_of_entriesOf.
    exists e. split; [|done]. by eapply list_elem_of_lookup_2.
  - intros Hadv Hlen.
    destruct (mutate_cases _ _ _ Hwf Hmax Hrun) as [?|[_ [Hst|?]]]; [lia| |lia].
    symmetry. by apply maxRevno_stamped.
Qed.

(** C8.  After any of add, update, markRemoved or decRef that returns, on a
    well-formed allInfo, the list is strictly sorted by decreasing revno:
    of two adjacent entries the one nearer the front has the greater revno,
    and no two entries of the list share a revno. *)
Theorem list_sorted_by_revno m a a' :
  wf a → latestRevno a < maxInt64 → mutate m a = (Ok tt, a') →
  (∀ i x y, entryAt a' i = Some x → entryAt a' (S i) = Some y →
            revno x > revno y) ∧
  (∀ i j x y, i ≠ j → entryAt a' i = Some x → entryAt a' j = Some y →
              revno x ≠ revno y).
Proof.
  intros Hwf Hmax Hrun.
  pose proof (mutate_wf _ _ _ Hwf Hmax Hrun) as Hwf'.
  split.
  - intros i x y Hx Hy. eapply (wf_entryAt_lt a' i (S i)); eauto.
  - intros i j x y Hij Hx Hy.
    destruct (decide (i < j)%nat) as [Hlt|Hge].
    + pose proof (wf_entryAt_lt a' i j x y Hwf' Hlt Hx Hy). lia.
    + assert (Hlt : (j < i)%nat) by lia.
      pose proof (wf_entryAt_lt a' j i y x Hwf' Hlt Hy Hx). lia.
Qed.

(** ** Deltas after a mutation *)

Lemma omap_insert_notin (st : gmap elem entityEntry) e en (l : list elem) :
  e ∉ l → omap (λ x, <[e := en]> st !! x) l = omap (λ x, st !! x) l.
Proof.
  intros Hnin. apply list_omap_ext.
  induction l as [|x l IH]; [constructor|].
  apply not_elem_of_cons in Hnin as [Hne Hnin].
  constructor; [|by apply IH]. by rewrite lookup_insert_ne.
Qed.

(** When the front entry alone is newer than [r], it is the one change. *)
Lemma changesSince_front r a e l en :
  wf a → list_ a = e :: l → store a !! e = Some en →
  (∀ x, x ∈ l → revnoAt a x ≤ r) →
  reported r en →
  changesSince r a = (Ok [toDelta en], a).
Proof.
  intros Hwf Hl Hen Hold Hrep.
  rewrite changesSince_wf by done. do 2 f_equal.
  unfold entriesOf. rewrite Hl, (omap_cons_Some _ e en) by done.
  rewrite filter_cons_True by done.
  rewrite filter_none; [done|].
  apply Forall_forall. intros y (x & Hx & Hy)%list_elem_of_omap [Hnew _].
  specialize (Hold x Hx). rewrite (revnoAt_Some _ _ _ Hy) in Hold. lia.
Qed.

(** C7.  [update id info] with [info] equal to the info of the stored
    entry is a no-op: the allInfo, with [latestRevno], the entry and the
    order of the list, is as before.  Hence of two consecutive updates with
    the same info the second changes nothing, and a [changesSince] that
    follows them, asked for the changes since the revno before the first,
    holds one delta, carrying that info (none when already the first update
    found the info stored). *)
Theorem update_same_info_noop id i a :
  wf a → latestRevno a < maxInt64 →
  ∃ a1 a2,
    update id i a = (Ok tt, a1) ∧ update id i a1 = (Ok tt, a2) ∧ a2 = a1 ∧
    match entities a !! id ≫= (λ el, store a !! el) with
    | Some en =>
        if decide (i = info en) then
          a1 = a ∧ changesSince (latestRevno a) a2 = (Ok [], a2)
        else
          changesSince (latestRevno a) a2 =
            (Ok [mkDelta (removed en) i], a2)
    | None => changesSince (latestRevno a) a2 = (Ok [mkDelta false i], a2)
    end.
Proof.
  intros Hwf Hmax. pose proof (wf_latest _ Hwf) as Hlat.
  destruct (update_total id i a Hwf) as [a1 Hrun].
  pose proof (update_wf _ _ _ _ Hwf Hmax Hrun) as Hwf1.
  pose proof Hrun as Hrun1.
  exists a1, a1.
  destruct (entities a !! id) as [el|] eqn:Hid; simpl.
  - destruct (wf_lookup _ _ _ Hwf Hid) as [Hel [en Hen]]. rewrite Hen.
    pose proof (wf_bound _ Hwf _ Hel) as Hb.
    rewrite (revnoAt_Some _ _ _ Hen) in Hb.
    pose proof (wf_creation _ Hwf _ _ Hen) as Hcre.
    destruct (decide (i = info en)) as [Hi|Hi].
    + erewrite update_same in Hrun by done. injection Hrun as <-.
      split_and!; try done; try (by eapply update_same).
      rewrite changesSince_wf by done. do 2 f_equal.
      rewrite filter_none; [done|].
      apply Forall_forall. intros y Hy [Hnew _].
      pose proof (wf_entries_bound _ _ Hwf Hy). lia.
    + erewrite update_changed in Hrun by done. injection Hrun as Ha1.
      rewrite incr64_small in Ha1 by done.
      unfold listMoveToFront in Ha1. rewrite decide_True in Ha1 by done.
      subst a1. split_and!; try done.
      * eapply update_same; simpl; [done|apply lookup_insert_eq|done].
      * rewrite (changesSince_front _ _ el (listRemove el (list_ a))
                   (set_info i (set_revno (latestRevno a + 1) en)));
          try done.
        -- simpl. apply lookup_insert_eq.
        -- intros x [Hne Hx]%listRemove_elem_of.
           unfold revnoAt. simpl. rewrite lookup_insert_ne by done.
           by apply wf_bound.
        -- split; simpl; [lia|]. intros [_ Hc]. simpl in Hc. lia.
  - rewrite update_absent in Hrun by done.
    rewrite add_fresh in Hrun by done. injection Hrun as Ha1.
    rewrite incr64_small in Ha1 by done.
    assert (Hfresh : fresh (dom (store a)) ∉ list_ a).
    { intros [en Hen]%(wf_store _ Hwf).
      apply (is_fresh (dom (store a))). apply elem_of_dom. eauto. }
    subst a1. split_and!; try done.
    + eapply update_same; simpl;
        [apply lookup_insert_eq|apply lookup_insert_eq|done].
    + rewrite (changesSince_front _ _ (fresh (dom (store a))) (list_ a)
                 (mkEntry (latestRevno a + 1) (latestRevno a + 1) false 0 i));
        try done.
      * simpl. apply lookup_insert_eq.
      * intros x Hx.
        unfold revnoAt. simpl. rewrite lookup_insert_ne by (by intros <-).
        by apply wf_bound.
      * split; simpl; [lia|]. by intros [? _].
Qed.

(** C6.  [add id info] followed by [markRemoved id], nothing having seen
    the entry in between (its [refCount] still 0), gives an allInfo with the
    map and the list it had before the add, from which [changesSince r], for
    any [r], returns what it returned before the add: no delta for [id],
    and no delta at all when the list held nothing else, as for a watcher
    that registers after both.  And whatever the allInfo, no delta comes
    from a removed entry created after the revno asked about. *)
Theorem add_markRemoved_no_delta id i a :
  wf a → latestRevno a + 1 < maxInt64 → entities a !! id = None →
  ∃ a1 a2,
    add id i a = (Ok tt, a1) ∧ markRemoved id a1 = (Ok tt, a2) ∧
    entities a2 = entities a ∧ list_ a2 = list_ a ∧
    entriesOf a2 = entriesOf a ∧
    (∀ r, (changesSince r a2).1 = (changesSince r a).1) ∧
    (list_ a = [] → ∀ r, changesSince r a2 = (Ok [], a2)) ∧
    (∀ b r, wf b →
       ∃ ens, changesSince r b = (Ok (toDelta <$> ens), b) ∧
              Forall (λ en, en ∈ entriesOf b ∧
                            (removed en = true → creationRevno en ≤ r)) ens).
Proof.
  intros Hwf Hmax Hid. pose proof (wf_latest _ Hwf) as Hlat.
  set (e := fresh (dom (store a))).
  assert (Hfresh : e ∉ list_ a).
  { intros [en Hen]%(wf_store _ Hwf).
    apply (is_fresh (dom (store a))). apply elem_of_dom. eauto. }
  set (en := mkEntry (latestRevno a + 1) (latestRevno a + 1) false 0 i).
  set (a1 := mkAllInfo (latestRevno a + 1) (<[id := e]> (entities a))
               (e :: list_ a) (<[e := en]> (store a))).
  set (a2 := mkAllInfo (latestRevno a + 1 + 1) (entities a) (list_ a)
               (<[e := en]> (store a))).
  assert (Hadd : add id i a = (Ok tt, a1)).
  { rewrite add_fresh by done. fold e. by rewrite incr64_small by lia. }
  assert (Hwf1 : wf a1).
  { apply wf_push; try done. lia. }
  assert (Hrm : markRemoved id a1 = (Ok tt, a2)).
  { erewrite (markRemoved_unseen id e en);
      [|apply lookup_insert_eq|apply lookup_insert_eq|done|done].
    simpl. rewrite incr64_small by lia.
    rewrite delete_insert_eq, delete_id by done.
    by rewrite listRemove_head by done. }
  assert (Hwf2 : wf a2).
  { eapply (markRemoved_wf id a1); [done|unfold a1; simpl; lia|done]. }
  assert (Hens : entriesOf a2 = entriesOf a).
  { unfold entriesOf. simpl. by apply omap_insert_notin. }
  exists a1, a2. split_and!; try done.
  - intros r. rewrite !changesSince_wf by done. simpl. by rewrite Hens.
  - intros Hnil r. rewrite changesSince_wf by done.
    rewrite Hens. unfold entriesOf. by rewrite Hnil.
  - intros b r Hb. eexists. split; [by apply changesSince_wf|].
    apply Forall_forall. intros x.
    rewrite elem_of_reverse, list_elem_of_filter.
    intros [[Hnew Hnot] Hx]. split; [done|].
    intros Hrem. destruct (decide (creationRevno x ≤ r)); [done|].
    exfalso. apply Hnot. split; [done|lia].
Qed.

(** ** The loops of seen and leave *)

Lemma unlinks_refl a : unlinks a a.
Proof. by split. Qed.

Lemma unlinks_trans a1 a2 a3 :
  unlinks a1 a2 → unlinks a2 a3 → unlinks a1 a3.
Proof.
  intros [H1 S1] [H2 S2]. split; [congruence|]. by etrans.
Qed.

Lemma decRef_unlinks entry id a :
  unlinks a (decRef entry id a).2 ∧ (decRef entry id a).1 ≠ OutOfFuel.
Proof.
  destruct (store a !! entry) as [en|] eqn:Hen; cycle 1.
  { rewrite decRef_dangling by done. split; [by split|done]. }
  destruct (decide (0 < decr64 (refCount en))) as [Hpos|Hpos].
  { erewrite decRef_positive by done. split; [by split|done]. }
  destruct (decide (decr64 (refCount en) < 0)) as [Hneg|Hneg].
  { erewrite decRef_negative by done. split; [by split|done]. }
  assert (Hc : decr64 (refCount en) = 0) by lia.
  destruct (removed en) eqn:Hrem; cycle 1.
  { erewrite decRef_live by done. split; [by split|done]. }
  destruct (entities a !! id) as [el|] eqn:Hid; cycle 1.
  { erewrite decRef_missing by done. split; [by split|done]. }
  erewrite decRef_last by done. split; [|done].
  split; [done|]. apply listRemove_sublist.
Qed.

Lemma seenBody_unlinks idFor r e a :
  unlinks a (seenBody idFor r e a).2 ∧ (seenBody idFor r e a).1 ≠ OutOfFuel.
Proof.
  unfold seenBody, readEntry, writeEntry. proc_unfold.
  destruct (store a !! e) as [en|]; [|split; [by split|done]].
  case_decide; [split; [by split|done]|].
  case_decide.
  - destruct (removed en); simpl; (split; [by split|done]).
  - destruct (removed en); simpl; [|split; [by split|done]].
    pose proof (decRef_unlinks e (idFor (info en)) a) as [Hu Hf].
    destruct (decRef e (idFor (info en)) a) as [[[]| |] a']; by simpl in *.
Qed.

Lemma leaveBody_unlinks idFor r e a :
  unlinks a (leaveBody idFor r e a).2 ∧ (leaveBody idFor r e a).1 ≠ OutOfFuel.
Proof.
  unfold leaveBody, readEntry. proc_unfold.
  destruct (store a !! e) as [en|]; [|split; [by split|done]].
  case_decide; [|split; [by split|done]].
  destruct (removed en && bool_decide (revno en ≤ r));
    [split; [by split|done]|].
  pose proof (decRef_unlinks e (idFor (info en)) a) as [Hu Hf].
  destruct (decRef e (idFor (info en)) a) as [[[]| |] a']; by simpl in *.
Qed.

Lemma forEachFrom_unlinks fuel body e a :
  (∀ x b, unlinks b (body x b).2) →
  unlinks a (forEachFrom fuel body e a).2.
Proof.
  intros Hbody. revert e a. induction fuel as [|fuel IH]; intros [el|] a;
    simpl; try apply unlinks_refl.
  proc_unfold. specialize (Hbody el a).
  destruct (body el a) as [[[]| |] a']; simpl in *; try done.
  eapply unlinks_trans; [done|]. apply IH.
Qed.

Lemma listAfter_length e l : (length (listAfter e l) ≤ length l)%nat.
Proof.
  induction l as [|x l IH]; simpl; [done|]. case_decide; simpl; lia.
Qed.

Lemma listAfter_sublist e l1 l2 :
  l1 `sublist_of` l2 →
  (length (listAfter e l1) ≤ length (listAfter e l2))%nat.
Proof.
  induction 1 as [|x l1 l2 Hsub IH|x l1 l2 Hsub IH]; simpl; [done| |].
  - case_decide; [by apply sublist_length|done].
  - case_decide; [|done].
    pose proof (listAfter_length e l1). apply sublist_length in Hsub. lia.
Qed.

Lemma listAfter_notin e l : e ∉ l → listAfter e l = [].
Proof.
  induction l as [|x l IH]; [done|].
  intros [Hne Hnin]%not_elem_of_cons. simpl.
  rewrite decide_False by done. by apply IH.
Qed.

Lemma listAfter_next e n t l :
  NoDup l → listAfter e l = n :: t → listAfter n l = t.
Proof.
  induction 1 as [|x l Hx Hnd IH]; [done|]. simpl.
  case_decide as Hxe.
  - intros ->. apply NoDup_cons in Hnd as [Hn _].
    rewrite decide_False by (intros ->; apply Hx; left).
    simpl. by rewrite decide_True.
  - intros Hafter. rewrite decide_False; [by apply IH|].
    intros ->. apply Hx.
    destruct (decide (e ∈ l)) as [He|He].
    + clear IH Hnd Hx Hxe. induction l as [|y l IH]; [done|].
      simpl in Hafter. case_decide.
      * subst l. right. left.
      * right. apply IH; [done|].
        apply elem_of_cons in He as [?|?]; [congruence|done].
    + by rewrite listAfter_notin in Hafter.
Qed.

(** The bound on the iterations given to the loop is never reached: the
    loop of [seen] and [leave] ends by itself on any list (whose elements
    are distinct, as those of a linked list are). *)
Lemma forEachFrom_enough_fuel fuel body e a :
  (∀ x b, unlinks b (body x b).2 ∧ (body x b).1 ≠ OutOfFuel) →
  NoDup (list_ a) →
  (iterationsFrom e (list_ a) ≤ fuel)%nat →
  (forEachFrom fuel body e a).1 ≠ OutOfFuel.
Proof.
  intros Hbody. revert e a.
  induction fuel as [|fuel IH]; intros [el|] a Hnd Hfuel; simpl; try done.
  { simpl in Hfuel. case_decide; lia. }
  proc_unfold. destruct (Hbody el a) as [[_ Hsub] Hout].
  destruct (body el a) as [[[]| |] a']; simpl in *; try done.
  apply IH; [by eapply sublist_NoDup|].
  unfold listNext. destruct (listAfter el (list_ a)) as [|n t] eqn:Hafter;
    simpl; [lia|].
  assert (Hel : el ∈ list_ a).
  { destruct (decide (el ∈ list_ a)); [done|].
    by rewrite listAfter_notin in Hafter. }
  rewrite decide_True in Hfuel by done. simpl in Hfuel.
  case_decide; [|lia].
  pose proof (listAfter_sublist n _ _ Hsub) as Hlen.
  rewrite (listAfter_next el n t (list_ a)) in Hlen by done. lia.
Qed.

Lemma forEach_returns body a :
  (∀ x b, unlinks b (body x b).2 ∧ (body x b).1 ≠ OutOfFuel) →
  NoDup (list_ a) →
  (forEach body a).1 ≠ OutOfFuel.
Proof.
  intros Hbody Hnd. unfold forEach. proc_unfold.
  apply forEachFrom_enough_fuel; [done|done|].
  destruct (list_ a) as [|x l]; simpl; [done|].
  rewrite decide_True by left. by rewrite decide_True.
Qed.

Lemma forEach_unlinks body a :
  (∀ x b, unlinks b (body x b).2) → unlinks a (forEach body a).2.
Proof.
  intros Hbody. unfold forEach. proc_unfold. by apply forEachFrom_unlinks.
Qed.

(** ** handle and respond *)

Lemma handle_next req c aw :
  w_stopped (watcherAt aw (req_w req)) = false → reply req = Some c →
  handle req aw =
    (Ok tt, set_waiting
              (<[req_w req := req :: default [] (waiting aw !! req_w req)]>)
              aw).
Proof.
  intros Hst Hreply. unfold handle, readWatcher. proc_unfold.
  unfold watcherAt in Hst. by rewrite Hst, Hreply.
Qed.

Lemma set_all_all aw : set_all (all aw) aw = aw.
Proof. by destruct aw. Qed.

Lemma seen_frame r aw :
  ∃ o a', seen r aw = (o, set_all a' aw) ∧ unlinks (all aw) a'.
Proof.
  unfold seen, onAll. proc_unfold.
  pose proof (forEach_unlinks (seenBody (entityIdForInfo (backing aw)) r)
                (all aw) (λ x b, proj1 (seenBody_unlinks _ r x b))) as Hu.
  destruct (forEach _ (all aw)) as [o a']. simpl in Hu. eauto.
Qed.

(** The body of [respond] when [changesSince] has nothing for the watcher,
    or panics: nothing is sent and nothing changes. *)
Lemma respondOne_idle w req rest aw o :
  (changesSince (w_revno (watcherAt aw w)) (all aw)).1 = o →
  o = Ok [] ∨ (∀ cs, o ≠ Ok cs) →
  ∃ o', respondOne w req rest aw = (o', aw).
Proof.
  intros Ho Hcase. unfold respondOne, readWatcher, onAll. proc_unfold.
  fold (watcherAt aw w).
  pose proof (changesSince_state (w_revno (watcherAt aw w)) (all aw)) as Hst.
  destruct (changesSince _ (all aw)) as [o1 a1]. simpl in *. subst o1 a1.
  rewrite set_all_all.
  destruct Hcase as [->|Hne]; [eauto|].
  destruct o as [cs| |]; [by destruct (Hne cs)|eauto|eauto].
Qed.

(** The body of [respond] when [changesSince] has changes for the watcher:
    they are put in the head request, the watcher is moved to
    [latestRevno], [true] is sent on the channel of the head request, which
    leaves the chain, and [seen] runs. *)
Lemma respondOne_serves w req rest aw cs :
  (changesSince (w_revno (watcherAt aw w)) (all aw)).1 = Ok cs → cs ≠ [] →
  ∃ o a',
    respondOne w req rest aw =
      (o, mkAllWatcher (backing aw) a'
            (match rest with
             | [] => delete w (waiting aw)
             | _ :: _ => <[w := rest]> (waiting aw)
             end)
            (<[w := mkWatcher (latestRevno (all aw))
                      (w_stopped (watcherAt aw w))]> (watchers aw))
            (sent aw ++ [(set_changes cs req, true)])) ∧
    unlinks (all aw) a'.
Proof.
  intros Hcs Hne. unfold respondOne, readWatcher, onAll, writeWatcher, send.
  proc_unfold. fold (watcherAt aw w).
  pose proof (changesSince_state (w_revno (watcherAt aw w)) (all aw)) as Hst.
  destruct (changesSince _ (all aw)) as [o1 a1]. simpl in *. subst o1 a1.
  rewrite set_all_all. destruct cs as [|c cs]; [done|].
  match goal with
  | |- ∃ o a', seen ?r ?s = _ ∧ _ =>
      destruct (seen_frame r s) as (o & a' & -> & Hu)
  end.
  exists o, a'. split; [|done]. by destruct rest.
Qed.

Lemma sentTo_app w tr1 tr2 :
  sentTo w (tr1 ++ tr2) = sentTo w tr1 ++ sentTo w tr2.
Proof. apply filter_app. Qed.

Lemma watcherAt_insert_eq aw w st f g h :
  watcherAt (mkAllWatcher f g h (<[w := st]> (watchers aw)) (sent aw)) w = st.
Proof. unfold watcherAt. simpl. by rewrite lookup_insert_eq. Qed.

(** One key of the pass. *)
Lemma respondAt_spec k aw :
  chainsOwned aw →
  ∃ o aw1 new,
    respondAt k aw = (o, aw1) ∧
    sent aw1 = sent aw ++ new ∧
    latestRevno (all aw1) = latestRevno (all aw) ∧
    chainsOwned aw1 ∧
    (∀ w, w ≠ k → notServed aw aw1 new w) ∧
    (∀ req rest, waiting aw !! k = Some (req :: rest) →
       servedHead aw aw1 new k req rest ∨ notServed aw aw1 new k).
Proof.
  intros Hown. unfold respondAt. proc_unfold.
  assert (Hidle : ∀ o : outcome unit,
    ∃ (o' : outcome unit) aw1 new, (o, aw) = (o', aw1) ∧
      sent aw1 = sent aw ++ new ∧
      latestRevno (all aw1) = latestRevno (all aw) ∧
      chainsOwned aw1 ∧
      (∀ w, w ≠ k → notServed aw aw1 new w) ∧
      (∀ req rest, waiting aw !! k = Some (req :: rest) →
         servedHead aw aw1 new k req rest ∨ notServed aw aw1 new k)).
  { intros o. exists o, aw, []. rewrite app_nil_r.
    split_and!; try done. intros ???. by right. }
  destruct (waiting aw !! k) as [[|req rest]|] eqn:Hk; try apply Hidle.
  destruct (changesSince (w_revno (watcherAt aw k)) (all aw)) as [oc ac]
    eqn:Hch.
  assert (Hcase : (∃ cs, oc = Ok cs ∧ cs ≠ []) ∨
                  oc = Ok [] ∨ (∀ cs, oc ≠ Ok cs)).
  { destruct oc as [[|c cs]| |];
      [by right; left|left; by exists (c :: cs)|by right; right..]. }
  destruct Hcase as [(cs & -> & Hne)|Hcase].
  - destruct (respondOne_serves k req rest aw cs) as (o & a' & -> & Hu);
      [by rewrite Hch|done|].
    eexists o, _, [(set_changes cs req, true)]. split; [done|].
    pose proof (Hown _ _ Hk) as Hreqs.
    apply Forall_cons in Hreqs as [Hreq Hrest].
    split_and!; simpl.
    + done.
    + by destruct Hu.
    + intros w l. simpl. destruct rest as [|r rest].
      * rewrite lookup_delete. case_decide; [done|]. apply Hown.
      * rewrite lookup_insert. case_decide; [|apply Hown].
        intros [= <-]. by subst.
    + intros w Hw. split_and!.
      * unfold sentTo. rewrite filter_cons_False; [done|]. simpl. congruence.
      * simpl. destruct rest.
        -- by rewrite lookup_delete_ne.
        -- by rewrite lookup_insert_ne.
      * unfold watcherAt. simpl. by rewrite lookup_insert_ne.
    + intros req0 rest0 [= <- <-]. left. exists cs. split_and!; try done.
      * unfold sentTo. by rewrite filter_cons_True.
      * simpl. destruct rest as [|r rest]; simpl.
        -- apply lookup_delete_eq.
        -- apply lookup_insert_eq.
      * unfold watcherAt at 1. simpl. by rewrite lookup_insert_eq.
  - destruct (respondOne_idle k req rest aw oc) as [o ->];
      [by rewrite Hch|done|].
    destruct (Hidle o) as (o' & aw1 & new & [= <- <-] & Hrest).
    by exists o, aw, new.
Qed.

Lemma notServed_refl aw w : notServed aw aw [] w.
Proof. by split_and!. Qed.

Lemma notServed_trans aw aw1 aw2 new1 new2 w :
  notServed aw aw1 new1 w → notServed aw1 aw2 new2 w →
  notServed aw aw2 (new1 ++ new2) w.
Proof.
  intros (S1 & W1 & R1) (S2 & W2 & R2). split_and!.
  - by rewrite sentTo_app, S1, S2.
  - congruence.
  - congruence.
Qed.

Lemma servedHead_then aw aw1 aw2 new1 new2 w req rest :
  servedHead aw aw1 new1 w req rest → notServed aw1 aw2 new2 w →
  servedHead aw aw2 (new1 ++ new2) w req rest.
Proof.
  intros (cs & Hne & S1 & W1 & R1) (S2 & W2 & R2).
  exists cs. split_and!; [done| | |].
  - by rewrite sentTo_app, S1, S2.
  - congruence.
  - congruence.
Qed.

Lemma notServed_then aw aw1 aw2 new1 new2 w req rest :
  latestRevno (all aw1) = latestRevno (all aw) →
  notServed aw aw1 new1 w → servedHead aw1 aw2 new2 w req rest →
  servedHead aw aw2 (new1 ++ new2) w req rest.
Proof.
  intros Hlat (S1 & W1 & R1) (cs & Hne & S2 & W2 & R2).
  exists cs. split_and!; [done| | |].
  - by rewrite sentTo_app, S1, S2.
  - done.
  - by rewrite R2, Hlat, R1.
Qed.

Lemma respond_cons k ks aw :
  respond (k :: ks) aw =
    match respondAt k aw with
    | (Ok _, aw1) => respond ks aw1
    | (Panic msg, aw1) => (Panic msg, aw1)
    | (OutOfFuel, aw1) => (OutOfFuel, aw1)
    end.
Proof. reflexivity. Qed.

(** A pass over keys other than [w] leaves [w] unserved. *)
Lemma respond_frame ks aw w :
  w ∉ ks → chainsOwned aw →
  ∃ o aw' new,
    respond ks aw = (o, aw') ∧ sent aw' = sent aw ++ new ∧
    latestRevno (all aw') = latestRevno (all aw) ∧
    chainsOwned aw' ∧ notServed aw aw' new w.
Proof.
  revert aw. induction ks as [|k ks IH]; intros aw Hnin Hown.
  { exists (Ok tt), aw, []. rewrite app_nil_r.
    split_and!; try done. }
  apply not_elem_of_cons in Hnin as [Hne Hnin].
  destruct (respondAt_spec k aw Hown)
    as (o & aw1 & new1 & Hat & Hsent1 & Hlat1 & Hown1 & Hothers & _).
  rewrite respond_cons, Hat.
  destruct o as [[]|msg|];
    try (eexists _, aw1, new1; split_and!; by eauto).
  destruct (IH aw1 Hnin Hown1)
    as (o & aw2 & new2 & -> & Hsent2 & Hlat2 & Hown2 & Hns).
  exists o, aw2, (new1 ++ new2). split_and!; try done.
  - by rewrite Hsent2, Hsent1, app_assoc.
  - congruence.
  - eapply notServed_trans; eauto.
Qed.

(** A pass over distinct keys serves the head request of a watcher, or
    leaves the watcher unserved. *)
Lemma respond_pass ks aw w req rest :
  NoDup ks → chainsOwned aw → waiting aw !! w = Some (req :: rest) →
  ∃ o aw' new,
    respond ks aw = (o, aw') ∧ sent aw' = sent aw ++ new ∧
    (servedHead aw aw' new w req rest ∨ notServed aw aw' new w).
Proof.
  revert aw. induction ks as [|k ks IH]; intros aw Hnd Hown Hw.
  { exists (Ok tt), aw, []. rewrite app_nil_r.
    split_and!; try done. right. apply notServed_refl. }
  apply NoDup_cons in Hnd as [Hk Hnd].
  destruct (respondAt_spec k aw Hown)
    as (o & aw1 & new1 & Hat & Hsent1 & Hlat1 & Hown1 & Hothers & Hhead).
  rewrite respond_cons, Hat.
  destruct (decide (w = k)) as [->|Hne].
  - specialize (Hhead _ _ Hw).
    destruct o as [[]|msg|];
      try (eexists _, aw1, new1; split_and!; by eauto).
    destruct (respond_frame ks aw1 k Hk Hown1)
      as (o & aw2 & new2 & -> & Hsent2 & Hlat2 & Hown2 & Hns).
    exists o, aw2, (new1 ++ new2). split_and!; try done.
    { by rewrite Hsent2, Hsent1, app_assoc. }
    destruct Hhead as [Hs|Hn].
    + left. eapply servedHead_then; eauto.
    + right. eapply notServed_trans; eauto.
  - specialize (Hothers w Hne). pose proof Hothers as (_ & Hw1 & _).
    destruct o as [[]|msg|];
      try (eexists _, aw1, new1; split_and!; by eauto).
    destruct (IH aw1 Hnd Hown1) as (o & aw2 & new2 & -> & Hsent2 & Hcase);
      [congruence|].
    exists o, aw2, (new1 ++ new2). split_and!; try done.
    { by rewrite Hsent2, Hsent1, app_assoc. }
    destruct Hcase as [Hs|Hn].
    + left. eapply notServed_then; eauto.
    + right. eapply notServed_trans; eauto.
Qed.

(** ** The pass returns *)

Lemma countNewer_no_fuel r l a : (countNewer r l a).1 ≠ OutOfFuel.
Proof.
  induction l as [|e l IH]; [done|].
  simpl. unfold readEntry. proc_unfold.
  destruct (store a !! e) as [en|]; [|done].
  case_decide; [done|].
  by destruct (countNewer r l a) as [[n| |] a'].
Qed.

Lemma collectChanges_no_fuel r l a : (collectChanges r l a).1 ≠ OutOfFuel.
Proof.
  induction l as [|e l IH]; [done|].
  simpl. unfold readEntry. proc_unfold.
  destruct (store a !! e) as [en|]; [|done].
  destruct (removed en && bool_decide (creationRevno en > r)); [done|].
  by destruct (collectChanges r l a) as [[n| |] a'].
Qed.

Lemma changesSince_no_fuel r a : (changesSince r a).1 ≠ OutOfFuel.
Proof.
  unfold changesSince. proc_unfold.
  pose proof (countNewer_no_fuel r (list_ a) a) as Hcount.
  destruct (countNewer r (list_ a) a) as [[n| |] a']; simpl in *; try done.
  apply collectChanges_no_fuel.
Qed.

Lemma seen_returns r aw :
  NoDup (list_ (all aw)) → (seen r aw).1 ≠ OutOfFuel.
Proof.
  intros Hnd. unfold seen, onAll. proc_unfold.
  pose proof (forEach_returns (seenBody (entityIdForInfo (backing aw)) r)
                (all aw) (seenBody_unlinks _ r) Hnd) as Hret.
  by destruct (forEach _ (all aw)) as [o a'].
Qed.

Lemma leave_returns w aw :
  NoDup (list_ (all aw)) → (leave w aw).1 ≠ OutOfFuel.
Proof.
  intros Hnd. unfold leave, readWatcher, onAll. proc_unfold.
  pose proof (forEach_returns
                (leaveBody (entityIdForInfo (backing aw))
                   (w_revno (default zeroWatcher (watchers aw !! w))))
                (all aw) (leaveBody_unlinks _ _) Hnd) as Hret.
  by destruct (forEach _ (all aw)) as [o a'].
Qed.

Lemma respondAt_returns k aw :
  NoDup (list_ (all aw)) →
  (respondAt k aw).1 ≠ OutOfFuel ∧ NoDup (list_ (all (respondAt k aw).2)).
Proof.
  intros Hnd. unfold respondAt. proc_unfold.
  destruct (waiting aw !! k) as [[|req rest]|]; try done.
  unfold respondOne, readWatcher, onAll, writeWatcher, send. proc_unfold.
  fold (watcherAt aw k).
  pose proof (changesSince_state (w_revno (watcherAt aw k)) (all aw)) as Hst.
  pose proof (changesSince_no_fuel (w_revno (watcherAt aw k)) (all aw)) as Hf.
  destruct (changesSince _ (all aw)) as [[[|c cs]| |] a1];
    simpl in *; subst a1; try done.
  match goal with
  | |- (seen ?r ?s).1 ≠ _ ∧ _ =>
      pose proof (seen_returns r s Hnd) as Hret;
      destruct (seen_frame r s) as (o & a' & Hseen & [_ Hsub])
  end.
  rewrite Hseen in *. split; [done|]. simpl in *.
  by eapply sublist_NoDup.
Qed.

Lemma respond_returns ks aw :
  NoDup (list_ (all aw)) → (respond ks aw).1 ≠ OutOfFuel.
Proof.
  revert aw. induction ks as [|k ks IH]; intros aw Hnd; [done|].
  rewrite respond_cons.
  destruct (respondAt_returns k aw Hnd) as [Hret Hnd1].
  destruct (respondAt k aw) as [[[]|msg|] aw1]; simpl in *; try done.
  by apply IH.
Qed.

(** ** The waiting map *)

Lemma chainsOwned_new b : chainsOwned (newAllWatcher b).
Proof. intros w l. simpl. by rewrite lookup_empty. Qed.

Lemma handle_chainsOwned req c aw :
  chainsOwned aw → w_stopped (watcherAt aw (req_w req)) = false →
  reply req = Some c → chainsOwned (handle req aw).2.
Proof.
  intros Hown Hst Hreply. erewrite handle_next by done.
  intros w l. simpl. rewrite lookup_insert. case_decide as Hw; [|apply Hown].
  intros [= <-]. apply Forall_cons. split; [done|]. subst w.
  destruct (waiting aw !! req_w req) as [l|] eqn:Hl; simpl; [|done].
  by eapply Hown.
Qed.

(** C1, as the code has it.  [handle] puts a Next request at the head of
    the chain of its watcher, before the requests that came earlier.  In a
    respond pass the loop body, when [changesSince] has changes for a
    watcher, sets the [changes] of the head of its chain - the request that
    came last - to them, moves the watcher to [latestRevno], sends [true] on
    the reply channel of that request and takes it off the chain.  A whole
    pass, over the keys in any order, does this for a watcher at most once:
    nothing is sent to the other requests of the watcher, which are the
    chain it is left with, waiting for further changes. *)
Theorem respond_serves_newest ks aw w req rest :
  NoDup ks → chainsOwned aw → NoDup (list_ (all aw)) →
  waiting aw !! w = Some (req :: rest) →
  (∀ nreq c,
     req_w nreq = w → reply nreq = Some c →
     w_stopped (watcherAt aw w) = false →
     ∃ aw0, handle nreq aw = (Ok tt, aw0) ∧
            waiting aw0 !! w = Some (nreq :: req :: rest)) ∧
  (∀ cs,
     (changesSince (w_revno (watcherAt aw w)) (all aw)).1 = Ok cs →
     cs ≠ [] →
     ∃ o aw1,
       respondAt w aw = (o, aw1) ∧ o ≠ OutOfFuel ∧
       sent aw1 = sent aw ++ [(set_changes cs req, true)] ∧
       waiting aw1 !! w = popped rest ∧
       watcherAt aw1 w =
         mkWatcher (latestRevno (all aw)) (w_stopped (watcherAt aw w))) ∧
  (∃ o aw' new,
     respond ks aw = (o, aw') ∧ o ≠ OutOfFuel ∧
     sent aw' = sent aw ++ new ∧
     (servedHead aw aw' new w req rest ∨ notServed aw aw' new w)).
Proof.
  intros Hks Hown Hnd Hw. split_and!.
  - intros nreq c Hnw Hreply Hst. subst w.
    erewrite handle_next by done. eexists. split; [done|].
    simpl. by rewrite lookup_insert_eq, Hw.
  - intros cs Hcs Hne.
    pose proof (respondAt_returns w aw Hnd) as [Hret _].
    unfold respondAt in *. proc_unfold. rewrite Hw in *.
    destruct (respondOne_serves w req rest aw cs Hcs Hne)
      as (o & a' & Hone & _).
    rewrite Hone in *. eexists o, _. split; [done|]. simpl.
    split_and!; try done.
    + destruct rest; simpl; [apply lookup_delete_eq|apply lookup_insert_eq].
    + unfold watcherAt at 1. simpl. by rewrite lookup_insert_eq.
  - destruct (respond_pass ks aw w req rest Hks Hown Hw)
      as (o & aw' & new & Hrun & Hsent & Hcase).
    pose proof (respond_returns ks aw Hnd) as Hret. rewrite Hrun in Hret.
    by exists o, aw', new.
Qed.

(** ** seen, leave, handle and respond keep the allInfo well-formed *)

Lemma sameButCount_refl en : sameButCount en en.
Proof. by repeat split. Qed.

Lemma bookkeeps_refl a : bookkeeps a a.
Proof.
  constructor; try done. intros e en Hen. exists en.
  split; [done|apply sameButCount_refl].
Qed.

Lemma bookkeeps_trans a1 a2 a3 :
  bookkeeps a1 a2 → bookkeeps a2 a3 → bookkeeps a1 a3.
Proof.
  intros B1 B2. constructor.
  - rewrite (bk_latest _ _ B2). apply (bk_latest _ _ B1).
  - etrans; [apply (bk_list _ _ B2)|apply (bk_list _ _ B1)].
  - etrans; [apply (bk_map _ _ B2)|apply (bk_map _ _ B1)].
  - intros e en Hen.
    destruct (bk_kept _ _ B1 e en Hen) as (en2 & Hen2 & S12).
    destruct (bk_kept _ _ B2 e en2 Hen2) as (en3 & Hen3 & S23).
    exists en3. split; [done|].
    destruct S12 as (?&?&?&?), S23 as (?&?&?&?).
    repeat split; congruence.
  - intros e He. apply (bk_none_new _ _ B2), (bk_none_new _ _ B1), He.
  - intros Hwf. apply (bk_wf _ _ B2), (bk_wf _ _ B1), Hwf.
Qed.

(** A reference count rewritten. *)
Lemma bookkeeps_count a e en c :
  store a !! e = Some en →
  bookkeeps a (set_store (insert e (set_refCount c en)) a).
Proof.
  intros Hen. constructor; simpl; try done.
  - intros x enx Hx. rewrite lookup_insert. case_decide as Hxe.
    + subst x. rewrite Hen in Hx. injection Hx as <-.
      eexists. split; [done|]. by repeat split.
    + exists enx. split; [done|apply sameButCount_refl].
  - intros x Hx. rewrite lookup_insert_ne; [done|]. intros ->. congruence.
  - intros Hwf. by eapply wf_rewrite.
Qed.

Lemma decRef_bookkeeps entry id a : bookkeeps a (decRef entry id a).2.
Proof.
  destruct (store a !! entry) as [en|] eqn:Hen; cycle 1.
  { rewrite decRef_dangling by done. apply bookkeeps_refl. }
  destruct (decide (0 < decr64 (refCount en))) as [Hpos|Hpos].
  { erewrite decRef_positive by done. by apply bookkeeps_count. }
  destruct (decide (decr64 (refCount en) < 0)) as [Hneg|Hneg].
  { erewrite decRef_negative by done. by apply bookkeeps_count. }
  assert (Hc : decr64 (refCount en) = 0) by lia.
  destruct (removed en) eqn:Hrem; cycle 1.
  { erewrite decRef_live by done. by apply bookkeeps_count. }
  destruct (entities a !! id) as [el|] eqn:Hid; cycle 1.
  { erewrite decRef_missing by done. by apply bookkeeps_count. }
  pose proof (decRef_last entry id en el a Hen Hc Hrem Hid) as Hrun.
  rewrite Hrun. pose proof (bookkeeps_count a entry en 0 Hen) as Bc.
  constructor; simpl.
  - done.
  - apply listRemove_sublist.
  - apply delete_subseteq.
  - apply (bk_kept _ _ Bc).
  - apply (bk_none_new _ _ Bc).
  - intros Hwf. by eapply decRef_wf.
Qed.

Lemma seenBody_bookkeeps idFor r e a : bookkeeps a (seenBody idFor r e a).2.
Proof.
  unfold seenBody, readEntry, writeEntry. proc_unfold.
  destruct (store a !! e) as [en|] eqn:Hen; [|apply bookkeeps_refl].
  case_decide; [apply bookkeeps_refl|].
  case_decide.
  - destruct (removed en); simpl; [apply bookkeeps_refl|].
    by apply bookkeeps_count.
  - destruct (removed en); simpl; [|apply bookkeeps_refl].
    pose proof (decRef_bookkeeps e (idFor (info en)) a) as Hb.
    destruct (decRef e (idFor (info en)) a) as [[[]| |] a']; by simpl in *.
Qed.

Lemma leaveBody_bookkeeps idFor r e a : bookkeeps a (leaveBody idFor r e a).2.
Proof.
  unfold leaveBody, readEntry. proc_unfold.
  destruct (store a !! e) as [en|]; [|apply bookkeeps_refl].
  case_decide; [|apply bookkeeps_refl].
  destruct (removed en && bool_decide (revno en ≤ r)); [apply bookkeeps_refl|].
  pose proof (decRef_bookkeeps e (idFor (info en)) a) as Hb.
  destruct (decRef e (idFor (info en)) a) as [[[]| |] a']; by simpl in *.
Qed.

Lemma forEachFrom_bookkeeps fuel body e a :
  (∀ x b, bookkeeps b (body x b).2) →
  bookkeeps a (forEachFrom fuel body e a).2.
Proof.
  intros Hbody. revert e a. induction fuel as [|fuel IH]; intros [el|] a;
    simpl; try apply bookkeeps_refl.
  proc_unfold. specialize (Hbody el a).
  destruct (body el a) as [[[]| |] a']; simpl in *; try done.
  eapply bookkeeps_trans; [done|]. apply IH.
Qed.

Lemma forEach_bookkeeps body a :
  (∀ x b, bookkeeps b (body x b).2) → bookkeeps a (forEach body a).2.
Proof.
  intros Hbody. unfold forEach. proc_unfold. by apply forEachFrom_bookkeeps.
Qed.

(** What a procedure of the allWatcher leaves alone when it works on
    [aw.all] only. *)
Lemma seen_bookkeeps r aw :
  ∃ o a', seen r aw = (o, set_all a' aw) ∧ bookkeeps (all aw) a'.
Proof.
  unfold seen, onAll. proc_unfold.
  pose proof (forEach_bookkeeps (seenBody (entityIdForInfo (backing aw)) r)
                (all aw) (seenBody_bookkeeps _ r)) as Hb.
  destruct (forEach _ (all aw)) as [o a']. simpl in Hb. eauto.
Qed.

Lemma leave_bookkeeps w aw :
  ∃ o a', leave w aw = (o, set_all a' aw) ∧ bookkeeps (all aw) a'.
Proof.
  unfold leave, readWatcher, onAll. proc_unfold.
  pose proof (forEach_bookkeeps
                (leaveBody (entityIdForInfo (backing aw))
                   (w_revno (default zeroWatcher (watchers aw !! w))))
                (all aw) (leaveBody_bookkeeps _ _)) as Hb.
  destruct (forEach _ (all aw)) as [o a']. simpl in Hb. eauto.
Qed.

(** ** The procedures of the allWatcher, as to the allInfo *)

Lemma forM_send (reqs : list allRequest) b aw :
  forM_ (λ r, send r b) reqs aw =
    (Ok tt, set_sent (λ s, s ++ ((λ r, (r, b)) <$> reqs)) aw).
Proof.
  revert aw. induction reqs as [|r reqs IH]; intros aw; simpl.
  - unfold mret, proc_ret, ret, set_sent. rewrite app_nil_r. by destruct aw.
  - unfold send. proc_unfold. rewrite IH. unfold set_sent. simpl.
    by rewrite <- app_assoc.
Qed.

(** A request of a stopped watcher: [false] is sent on its reply channel if
    it has one, and nothing else happens. *)
Lemma handle_stopped req aw :
  w_stopped (watcherAt aw (req_w req)) = true →
  handle req aw =
    (Ok tt, match reply req with
            | Some _ => set_sent (λ s, s ++ [(req, false)]) aw
            | None => aw
            end).
Proof.
  intros Hst. unfold handle, readWatcher, send. proc_unfold.
  unfold watcherAt in Hst. rewrite Hst. by destruct (reply req).
Qed.

(** A stop request of a watcher that is not stopped. *)
Lemma handle_stop req aw :
  w_stopped (watcherAt aw (req_w req)) = false → reply req = None →
  ∃ o a',
    handle req aw =
      (o, mkAllWatcher (backing aw) a'
            (delete (req_w req) (waiting aw))
            (<[req_w req := mkWatcher (w_revno (watcherAt aw (req_w req)))
                              true]> (watchers aw))
            (sent aw ++
               ((λ r, (r, false)) <$> default [] (waiting aw !! req_w req))))
    ∧ bookkeeps (all aw) a' ∧ (NoDup (list_ (all aw)) → o ≠ OutOfFuel).
Proof.
  intros Hst Hreply. unfold handle, readWatcher, writeWatcher. proc_unfold.
  unfold watcherAt in *. rewrite Hst, Hreply. rewrite forM_send. simpl.
  match goal with
  | |- ∃ o a', leave ?w ?s = _ ∧ _ =>
      pose proof (leave_returns w s) as Hret;
      destruct (leave_bookkeeps w s) as (o & a' & Hleave & Hb)
  end.
  rewrite Hleave in *. exists o, a'. split; [done|]. split; [done|].
  intros Hnd. by apply Hret.
Qed.

Lemma respondAt_bookkeeps k aw :
  bookkeeps (all aw) (all (respondAt k aw).2) ∧
  backing (respondAt k aw).2 = backing aw.
Proof.
  unfold respondAt. proc_unfold.
  destruct (waiting aw !! k) as [[|req rest]|];
    try (split; [apply bookkeeps_refl|done]).
  unfold respondOne, readWatcher, onAll, writeWatcher, send. proc_unfold.
  fold (watcherAt aw k).
  pose proof (changesSince_state (w_revno (watcherAt aw k)) (all aw)) as Hst.
  destruct (changesSince _ (all aw)) as [[[|c cs]| |] a1];
    simpl in *; subst a1; try (split; [apply bookkeeps_refl|done]).
  match goal with
  | |- bookkeeps _ (all (seen ?r ?s).2) ∧ _ =>
      destruct (seen_bookkeeps r s) as (o & a' & Hseen & Hb)
  end.
  by rewrite Hseen.
Qed.

Lemma respond_bookkeeps ks aw :
  bookkeeps (all aw) (all (respond ks aw).2) ∧
  backing (respond ks aw).2 = backing aw.
Proof.
  revert aw. induction ks as [|k ks IH]; intros aw.
  { split; [apply bookkeeps_refl|done]. }
  rewrite respond_cons.
  destruct (respondAt_bookkeeps k aw) as [Hb Hback].
  destruct (respondAt k aw) as [[[]|msg|] aw1]; simpl in *; try done.
  destruct (IH aw1) as [Hb2 Hback2]. split; [|congruence].
  by eapply bookkeeps_trans.
Qed.

Lemma respond_chainsOwned ks aw :
  chainsOwned aw → chainsOwned (respond ks aw).2.
Proof.
  revert aw. induction ks as [|k ks IH]; intros aw Hown; [done|].
  rewrite respond_cons.
  destruct (respondAt_spec k aw Hown) as (o & aw1 & new & -> & _ & _ & ? & _).
  destruct o as [[]|msg|]; simpl; try done. by apply IH.
Qed.

Lemma handle_bookkeeps req aw :
  bookkeeps (all aw) (all (handle req aw).2) ∧
  backing (handle req aw).2 = backing aw ∧
  (chainsOwned aw → chainsOwned (handle req aw).2) ∧
  (NoDup (list_ (all aw)) → (handle req aw).1 ≠ OutOfFuel).
Proof.
  destruct (w_stopped (watcherAt aw (req_w req))) eqn:Hst.
  { rewrite handle_stopped by done.
    destruct (reply req); simpl; (split_and!; [apply bookkeeps_refl|done..]). }
  destruct (reply req) as [c|] eqn:Hreply.
  - pose proof (handle_chainsOwned req c aw) as Hown.
    rewrite (handle_next req c) in * by done. simpl.
    split_and!; [apply bookkeeps_refl|done| |done].
    intros H. by apply Hown.
  - destruct (handle_stop req aw Hst Hreply) as (o & a' & -> & Hb & Hret).
    simpl. split_and!; try done.
    intros Hown w l. simpl. rewrite lookup_delete. case_decide; [done|].
    apply Hown.
Qed.

(** [changed] applies one mutation at most to the allInfo and touches
    nothing else. *)
Lemma changed_effect id aw :
  wf (all aw) → latestRevno (all aw) < maxInt64 →
  ∃ o a',
    changed id aw = (Ok o, set_all a' aw) ∧ wf a' ∧
    (latestRevno a' = latestRevno (all aw) ∨
     latestRevno a' = latestRevno (all aw) + 1).
Proof.
  intros Hwf Hmax. unfold changed, onAll. proc_unfold.
  destruct (fetch (backing aw) id) as [i|err].
  - destruct (update_total id i (all aw) Hwf) as [a' Hrun]. rewrite Hrun.
    exists None, a'. split; [done|].
    split; [by eapply update_wf|].
    destruct (mutate_cases (Update id i) _ _ Hwf Hmax Hrun) as [?|[? _]]; eauto.
  - assert (Hsame : ∃ (o : option error) a',
      (Ok (Some err), aw) = (Ok o, set_all a' aw) ∧ wf a' ∧
      (latestRevno a' = latestRevno (all aw) ∨
       latestRevno a' = latestRevno (all aw) + 1)).
    { exists (Some err), (all aw). rewrite set_all_all. eauto. }
    destruct err; try done.
    destruct (markRemoved_total id (all aw) Hwf) as [a' Hrun]. rewrite Hrun.
    exists None, a'. split; [done|].
    split; [by eapply markRemoved_wf|].
    destruct (mutate_cases (MarkRemoved id) _ _ Hwf Hmax Hrun) as [?|[? _]];
      eauto.
Qed.

Lemma loopIteration_steady ev ks aw :
  steady aw → latestRevno (all aw) < maxInt64 →
  let out := loopIteration ev ks aw in
  steady out.2 ∧ out.1 ≠ OutOfFuel ∧
  latestRevno (all aw) ≤ latestRevno (all out.2) ≤ latestRevno (all aw) + 1.
Proof.
  intros [Hwf Hown] Hmax out. unfold out, loopIteration. clear out.
  assert (Hresp : ∀ aw1, steady aw1 →
    steady (respond ks aw1).2 ∧ (respond ks aw1).1 ≠ OutOfFuel ∧
    latestRevno (all (respond ks aw1).2) = latestRevno (all aw1)).
  { intros aw1 [Hwf1 Hown1].
    destruct (respond_bookkeeps ks aw1) as [Hb _].
    split_and!.
    - split; [by apply (bk_wf _ _ Hb)|by apply respond_chainsOwned].
    - apply respond_returns. by apply wf_nodup.
    - apply (bk_latest _ _ Hb). }
  destruct ev as [|c k|req]; simpl.
  - split_and!; try done; lia.
  - destruct (changed_effect (mkEntityId c k) aw Hwf Hmax)
      as (o & a' & Hch & Hwf' & Hlat).
    proc_unfold. change (bind ?f ?m ?s) with (bind f m s) in *.
    rewrite Hch. destruct o as [err|]; simpl.
    + split_and!; try done; lia.
    + destruct (Hresp (set_all a' aw)) as (Hst & Hret & Hl); [done|].
      destruct (respond ks (set_all a' aw)) as [[[]|msg|] aw2];
        simpl in *; (split_and!; try done; lia).
  - proc_unfold.
    destruct (handle_bookkeeps req aw) as (Hb & _ & Hown' & Hret).
    specialize (Hown' Hown). specialize (Hret (wf_nodup _ Hwf)).
    pose proof (bk_wf _ _ Hb Hwf) as Hwf'.
    pose proof (bk_latest _ _ Hb) as Hlat.
    destruct (handle req aw) as [[[]|msg|] aw1]; simpl in *;
      try (split_and!; try done; lia).
    destruct (Hresp aw1) as (Hst & Hret2 & Hl); [done|].
    destruct (respond ks aw1) as [[[]|msg|] aw2];
      simpl in *; (split_and!; try done; lia).
Qed.

(** ** More on allInfo *)

Lemma changesSince_none_newer r a :
  wf a → latestRevno a ≤ r → changesSince r a = (Ok [], a).
Proof.
  intros Hwf Hr. rewrite changesSince_wf by done. do 2 f_equal.
  rewrite filter_none; [done|].
  apply Forall_forall. intros en Hen [Hnew _].
  pose proof (wf_entries_bound _ _ Hwf Hen). lia.
Qed.

(** X14. Asked for the changes since [latestRevno] or a later revno,
    [changesSince] returns none. *)
Theorem changesSince_up_to_date r a :
  wf a → latestRevno a ≤ r → changesSince r a = (Ok [], a).
Proof. apply changesSince_none_newer. Qed.

(** X15. [markRemoved] of an entity that is not yet marked, as a watcher that
    is up to date sees it: the removal of an entity something has seen is one
    delta, with [Removed] set and the last information of the entity; the
    removal of an entity nothing has seen is no delta. *)
Theorem markRemoved_delta id el en a :
  wf a → latestRevno a < maxInt64 →
  entities a !! id = Some el → store a !! el = Some en →
  removed en = false →
  ∃ a', markRemoved id a = (Ok tt, a') ∧
        changesSince (latestRevno a) a' =
          (Ok (if decide (refCount en = 0) then []
               else [mkDelta true (info en)]), a').
Proof.
  intros Hwf Hmax Hid Hen Hrem. pose proof (wf_latest _ Hwf) as Hlat.
  assert (Hel : el ∈ list_ a) by (by eapply wf_map).
  destruct (markRemoved_total id a Hwf) as [a' Hrun].
  pose proof (markRemoved_wf _ _ _ Hwf Hmax Hrun) as Hwf'.
  exists a'. split; [done|].
  pose proof (wf_bound _ Hwf _ Hel) as Hb.
  rewrite (revnoAt_Some _ _ _ Hen) in Hb.
  pose proof (wf_creation _ Hwf _ _ Hen) as Hcre.
  case_decide as Hc.
  - erewrite markRemoved_unseen in Hrun by done. injection Hrun as <-.
    rewrite changesSince_wf by done. do 2 f_equal.
    rewrite filter_none; [done|].
    apply Forall_forall. intros y (x & Hx & Hy)%elem_of_entriesOf [Hnew _].
    simpl in *. apply listRemove_elem_of in Hx as [_ Hx].
    pose proof (wf_bound _ Hwf _ Hx) as Hbx.
    rewrite (revnoAt_Some _ _ _ Hy) in Hbx. lia.
  - erewrite markRemoved_seen in Hrun by done.
    rewrite incr64_small in Hrun by done.
    unfold listMoveToFront in Hrun. rewrite decide_True in Hrun by done.
    injection Hrun as <-.
    rewrite (changesSince_front _ _ el (listRemove el (list_ a))
               (set_removed true (set_revno (latestRevno a + 1) en)));
      try done.
    + simpl. apply lookup_insert_eq.
    + intros x [Hne Hx]%listRemove_elem_of.
      unfold revnoAt. simpl. rewrite lookup_insert_ne by done.
      by apply wf_bound.
    + split; simpl; [lia|]. intros [_ Hcr]. simpl in Hcr. lia.
Qed.

(** What a mutation does to the entries there are. *)
Lemma mutate_store m a a' e en :
  wf a → latestRevno a < maxInt64 → mutate m a = (Ok tt, a') →
  store a !! e = Some en →
  ∃ en', store a' !! e = Some en' ∧
    creationRevno en' = creationRevno en ∧
    (removed en = true → removed en' = true) ∧
    (en' = set_refCount (refCount en') en ∨
     e ∈ list_ a ∧ revno en' = latestRevno a + 1 ∧
     latestRevno a' = latestRevno a + 1 ∧ refCount en' = refCount en).
Proof.
  intros Hwf Hmax Hrun Hen. pose proof (wf_latest _ Hwf) as Hlat.
  assert (Hsame : ∃ en', store a !! e = Some en' ∧
    creationRevno en' = creationRevno en ∧
    (removed en = true → removed en' = true) ∧
    (en' = set_refCount (refCount en') en ∨
     e ∈ list_ a ∧ revno en' = latestRevno a + 1 ∧
     latestRevno a' = latestRevno a + 1 ∧ refCount en' = refCount en)).
  { exists en. split_and!; try done. left. by destruct en. }
  assert (Hcount : ∀ x enx c,
    store a !! x = Some enx →
    ∃ en', <[x := set_refCount c enx]> (store a) !! e = Some en' ∧
      creationRevno en' = creationRevno en ∧
      (removed en = true → removed en' = true) ∧
      (en' = set_refCount (refCount en') en ∨
       e ∈ list_ a ∧ revno en' = latestRevno a + 1 ∧
       latestRevno a' = latestRevno a + 1 ∧ refCount en' = refCount en)).
  { intros x enx c Hx. rewrite lookup_insert. case_decide as Hxe.
    - subst x. rewrite Hen in Hx. injection Hx as <-.
      eexists. split_and!; try done. by left.
    - rewrite Hen. exists en. split_and!; try done. left. by destruct en. }
  assert (Hadd : ∀ id i, add id i a = (Ok tt, a') →
    ∃ en', store a' !! e = Some en' ∧
      creationRevno en' = creationRevno en ∧
      (removed en = true → removed en' = true) ∧
      (en' = set_refCount (refCount en') en ∨
       e ∈ list_ a ∧ revno en' = latestRevno a + 1 ∧
       latestRevno a' = latestRevno a + 1 ∧ refCount en' = refCount en)).
  { intros id i Hadd.
    destruct (entities a !! id) as [el|] eqn:Hid.
    { rewrite add_duplicate in Hadd by eauto. discriminate. }
    rewrite add_fresh in Hadd by done. injection Hadd as <-. simpl.
    rewrite lookup_insert_ne; [done|].
    intros Heq. apply (is_fresh (dom (store a))).
    rewrite Heq. apply elem_of_dom. eauto. }
  destruct m as [id i|id i|id|entry id]; simpl in Hrun.
  - by eapply Hadd.
  - destruct (entities a !! id) as [el|] eqn:Hid; cycle 1.
    { rewrite update_absent in Hrun by done. by eapply Hadd. }
    destruct (wf_lookup _ _ _ Hwf Hid) as [Hel [eno Heno]].
    destruct (decide (i = info eno)) as [Hi|Hi].
    { erewrite update_same in Hrun by done. by injection Hrun as <-. }
    erewrite update_changed in Hrun by done. injection Hrun as <-. simpl.
    rewrite incr64_small by done.
    rewrite lookup_insert. case_decide as Hxe;
      [|exists en; split_and!; try done; left; by destruct en].
    subst el. rewrite Hen in Heno. injection Heno as <-.
    eexists. split_and!; try done. by right.
  - destruct (entities a !! id) as [el|] eqn:Hid; cycle 1.
    { rewrite markRemoved_absent in Hrun by done. by injection Hrun as <-. }
    destruct (wf_lookup _ _ _ Hwf Hid) as [Hel [eno Heno]].
    destruct (removed eno) eqn:Hrem.
    { erewrite markRemoved_removed in Hrun by done. by injection Hrun as <-. }
    destruct (decide (refCount eno = 0)) as [Hc|Hc].
    { erewrite markRemoved_unseen in Hrun by done. by injection Hrun as <-. }
    erewrite markRemoved_seen in Hrun by done. injection Hrun as <-. simpl.
    rewrite incr64_small by done.
    rewrite lookup_insert. case_decide as Hxe;
      [|exists en; split_and!; try done; left; by destruct en].
    subst el. rewrite Hen in Heno. injection Heno as <-.
    eexists. split_and!; try done. by right.
  - destruct (store a !! entry) as [eno|] eqn:Heno; cycle 1.
    { by rewrite decRef_dangling in Hrun. }
    destruct (decide (0 < decr64 (refCount eno))) as [Hpos|Hpos].
    { erewrite decRef_positive in Hrun by done. injection Hrun as <-.
      by apply Hcount. }
    destruct (decide (decr64 (refCount eno) < 0)) as [Hneg|Hneg].
    { by erewrite decRef_negative in Hrun. }
    assert (Hc : decr64 (refCount eno) = 0) by lia.
    destruct (removed eno) eqn:Hrem; cycle 1.
    { erewrite decRef_live in Hrun by done. injection Hrun as <-.
      by apply Hcount. }
    destruct (entities a !! id) as [el|] eqn:Hid; cycle 1.
    { by erewrite decRef_missing in Hrun. }
    erewrite decRef_last in Hrun by done. injection Hrun as <-.
    by apply Hcount.
Qed.

(** ** The history of an entry *)

(** X12. Under a mutation that returns, [latestRevno] stays or goes up by one,
    and an entry that was there is still there with the [creationRevno] it was
    given; if it was removed it still is; its revno is as it was, or the entry
    is on the list and now has the new [latestRevno], greater than its revno
    before. *)
Theorem mutate_entry_history m a a' e en :
  wf a → latestRevno a < maxInt64 → mutate m a = (Ok tt, a') →
  store a !! e = Some en →
  latestRevno a ≤ latestRevno a' ≤ latestRevno a + 1 ∧
  ∃ en', store a' !! e = Some en' ∧
    creationRevno en' = creationRevno en ∧
    (removed en = true → removed en' = true) ∧
    (revno en' = revno en ∨
     e ∈ list_ a ∧ revno en < revno en' ∧ revno en' = latestRevno a').
Proof.
  intros Hwf Hmax Hrun Hen. split.
  { destruct (mutate_cases _ _ _ Hwf Hmax Hrun) as [?|[? _]]; lia. }
  destruct (mutate_store m a a' e en Hwf Hmax Hrun Hen)
    as (en' & Hen' & Hcre & Hrem & [Hsame|(He & Hrev & Hlat & _)]).
  - exists en'. split_and!; try done. left. by rewrite Hsame.
  - exists en'. split_and!; try done. right.
    pose proof (wf_bound _ Hwf _ He) as Hb.
    rewrite (revnoAt_Some _ _ _ Hen) in Hb. split_and!; [done|lia|lia].
Qed.

(** ** The map and the list hold the same elements *)

Lemma mutate_indexed m a a' :
  wf a → indexed a → mutate m a = (Ok tt, a') → indexed a'.
Proof.
  intros Hwf Hidx Hrun.
  assert (Hadd : ∀ id i, add id i a = (Ok tt, a') → indexed a').
  { intros id i Hadd.
    destruct (entities a !! id) as [el|] eqn:Hid.
    { rewrite add_duplicate in Hadd by eauto. discriminate. }
    rewrite add_fresh in Hadd by done. injection Hadd as <-.
    intros x. simpl. rewrite elem_of_cons. intros [->|Hx].
    - exists id. apply lookup_insert_eq.
    - destruct (Hidx x Hx) as [id' Hid']. exists id'.
      rewrite lookup_insert_ne; [done|]. intros ->. congruence. }
  assert (Hdrop : ∀ id el x,
    entities a !! id = Some el → x ∈ listRemove el (list_ a) →
    ∃ id', delete id (entities a) !! id' = Some x).
  { intros id el x Hid [Hne Hx]%listRemove_elem_of.
    destruct (Hidx x Hx) as [id' Hid']. exists id'.
    rewrite lookup_delete_ne; [done|]. intros ->. congruence. }
  destruct m as [id i|id i|id|entry id]; simpl in Hrun.
  - by eapply Hadd.
  - destruct (entities a !! id) as [el|] eqn:Hid; cycle 1.
    { rewrite update_absent in Hrun by done. by eapply Hadd. }
    destruct (wf_lookup _ _ _ Hwf Hid) as [Hel [eno Heno]].
    destruct (decide (i = info eno)) as [Hi|Hi].
    { erewrite update_same in Hrun by done. by injection Hrun as <-. }
    erewrite update_changed in Hrun by done. injection Hrun as <-.
    intros x. simpl. rewrite listMoveToFront_elem_of. apply Hidx.
  - destruct (entities a !! id) as [el|] eqn:Hid; cycle 1.
    { rewrite markRemoved_absent in Hrun by done. by injection Hrun as <-. }
    destruct (wf_lookup _ _ _ Hwf Hid) as [Hel [eno Heno]].
    destruct (removed eno) eqn:Hrem.
    { erewrite markRemoved_removed in Hrun by done. by injection Hrun as <-. }
    destruct (decide (refCount eno = 0)) as [Hc|Hc].
    + erewrite markRemoved_unseen in Hrun by done. injection Hrun as <-.
      intros x. simpl. by apply Hdrop.
    + erewrite markRemoved_seen in Hrun by done. injection Hrun as <-.
      intros x. simpl. rewrite listMoveToFront_elem_of. apply Hidx.
  - destruct (store a !! entry) as [eno|] eqn:Heno; cycle 1.
    { by rewrite decRef_dangling in Hrun. }
    destruct (decide (0 < decr64 (refCount eno))) as [Hpos|Hpos].
    { erewrite decRef_positive in Hrun by done. by injection Hrun as <-. }
    destruct (decide (decr64 (refCount eno) < 0)) as [Hneg|Hneg].
    { by erewrite decRef_negative in Hrun. }
    assert (Hc : decr64 (refCount eno) = 0) by lia.
    destruct (removed eno) eqn:Hrem; cycle 1.
    { erewrite decRef_live in Hrun by done. by injection Hrun as <-. }
    destruct (entities a !! id) as [el|] eqn:Hid; cycle 1.
    { by erewrite decRef_missing in Hrun. }
    erewrite decRef_last in Hrun by done. injection Hrun as <-.
    intros x. simpl. by apply Hdrop.
Qed.

Lemma reachable_indexed a : reachable a → indexed a.
Proof.
  induction 1 as [|m a a' Hreach IH Hmax Hrun|e en a _ IH Hen].
  - intros e He. by apply elem_of_nil in He.
  - eapply mutate_indexed; [by apply reachable_wf|done|done].
  - done.
Qed.

(** X10. In every allInfo the code can build, the map and the list hold the
    same elements: the elements of the list are distinct, each id of the map
    leads to an element of the list that has an entry, each element of the
    list is the value of exactly one id, and the list is as long as the map is
    large. *)
Theorem reachable_index_consistent a :
  reachable a →
  NoDup (list_ a) ∧
  (∀ id e, entities a !! id = Some e →
           e ∈ list_ a ∧ is_Some (store a !! e)) ∧
  (∀ e, e ∈ list_ a → ∃ id, entities a !! id = Some e) ∧
  (∀ id1 id2 e, entities a !! id1 = Some e → entities a !! id2 = Some e →
                id1 = id2) ∧
  length (list_ a) = size (entities a).
Proof.
  intros Hreach. pose proof (reachable_wf _ Hreach) as Hwf.
  pose proof (reachable_indexed _ Hreach) as Hidx.
  split_and!.
  - by apply wf_nodup.
  - intros id e Hid. destruct (wf_lookup _ _ _ Hwf Hid) as [? [en ?]]. eauto.
  - done.
  - by apply wf_inj.
  - rewrite <- length_map_to_list, <- (length_fmap snd).
    apply Permutation_length, NoDup_Permutation.
    + by apply wf_nodup.
    + apply NoDup_fmap_2_strong; [|apply NoDup_map_to_list].
      intros [id1 e1] [id2 e2] H1%elem_of_map_to_list H2%elem_of_map_to_list.
      simpl. intros <-. f_equal. by eapply wf_inj.
    + intros e. rewrite list_elem_of_fmap. split.
      * intros [id Hid]%Hidx. exists (id, e). split; [done|].
        by apply elem_of_map_to_list.
      * intros ([id e'] & -> & Hin%elem_of_map_to_list). simpl.
        by eapply wf_map.
Qed.

(** ** No entry is left that is removed and referred to by nothing *)

Lemma decr64_count c : 0 ≤ c ≤ maxInt64 → decr64 c = c - 1.
Proof. unfold decr64, maxInt64. intros ?. apply wrap64_small. lia. Qed.

(** X11. The mutations, [decRef] being called with the id of the entry as the
    allWatcher calls it, keep the reference counts of the entries of the list
    between 0 and the largest [int], and leave on the list no removed entry
    with a count of 0. *)
Theorem mutate_no_ghost m a a' :
  wf a → noGhost a → latestRevno a < maxInt64 → consistent m a →
  mutate m a = (Ok tt, a') → noGhost a'.
Proof.
  intros Hwf Hng Hmax Hcons Hrun.
  assert (Hmaxpos : 0 ≤ maxInt64) by (unfold maxInt64; lia).
  assert (Hadd : ∀ id i, add id i a = (Ok tt, a') → noGhost a').
  { intros id i Hadd.
    destruct (entities a !! id) as [el|] eqn:Hid.
    { rewrite add_duplicate in Hadd by eauto. discriminate. }
    rewrite add_fresh in Hadd by done. injection Hadd as <-.
    intros x enx. simpl. rewrite elem_of_cons, lookup_insert.
    case_decide as Hx.
    - intros _ [= <-]. simpl. split; [lia|done].
    - intros [?|Hin]; [congruence|]. by apply Hng. }
  assert (Hdrop : ∀ el (st' : gmap elem entityEntry),
    (∀ x, x ≠ el → st' !! x = store a !! x) →
    ∀ x enx, x ∈ listRemove el (list_ a) → st' !! x = Some enx →
      0 ≤ refCount enx ≤ maxInt64 ∧ (removed enx = true → 0 < refCount enx)).
  { intros el st' Hst x enx [Hne Hx]%listRemove_elem_of.
    rewrite Hst by done. by apply Hng. }
  destruct m as [id i|id i|id|entry id]; simpl in Hrun, Hcons.
  - by eapply Hadd.
  - destruct (entities a !! id) as [el|] eqn:Hid; cycle 1.
    { rewrite update_absent in Hrun by done. by eapply Hadd. }
    destruct (wf_lookup _ _ _ Hwf Hid) as [Hel [eno Heno]].
    destruct (decide (i = info eno)) as [Hi|Hi].
    { erewrite update_same in Hrun by done. by injection Hrun as <-. }
    erewrite update_changed in Hrun by done. injection Hrun as <-.
    intros x enx. simpl. rewrite listMoveToFront_elem_of, lookup_insert.
    case_decide as Hx; [|by apply Hng].
    intros _ [= <-]. simpl. subst x. exact (Hng el eno Hel Heno).
  - destruct (entities a !! id) as [el|] eqn:Hid; cycle 1.
    { rewrite markRemoved_absent in Hrun by done. by injection Hrun as <-. }
    destruct (wf_lookup _ _ _ Hwf Hid) as [Hel [eno Heno]].
    destruct (removed eno) eqn:Hrem.
    { erewrite markRemoved_removed in Hrun by done. by injection Hrun as <-. }
    destruct (decide (refCount eno = 0)) as [Hc|Hc].
    + erewrite markRemoved_unseen in Hrun by done. injection Hrun as <-.
      intros x enx. simpl. by apply Hdrop.
    + erewrite markRemoved_seen in Hrun by done. injection Hrun as <-.
      intros x enx. simpl. rewrite listMoveToFront_elem_of, lookup_insert.
      case_decide as Hx; [|by apply Hng].
      intros _ [= <-]. simpl. subst x.
      destruct (Hng el eno Hel Heno) as [Hrange _]. split; [done|]. lia.
  - assert (Hentry : entry ∈ list_ a) by (by eapply wf_map).
    destruct (wf_store _ Hwf _ Hentry) as [eno Heno].
    destruct (Hng entry eno Hentry Heno) as [Hrange Hlive].
    pose proof (decr64_count _ Hrange) as Hdec.
    destruct (decide (0 < decr64 (refCount eno))) as [Hpos|Hpos].
    { erewrite decRef_positive in Hrun by done. injection Hrun as <-.
      intros x enx. unfold decremented. simpl. rewrite lookup_insert.
      case_decide as Hx; [|by apply Hng].
      intros _ [= <-]. simpl. split; lia. }
    destruct (decide (decr64 (refCount eno) < 0)) as [Hneg|Hneg].
    { by erewrite decRef_negative in Hrun. }
    assert (Hc : decr64 (refCount eno) = 0) by lia.
    destruct (removed eno) eqn:Hrem; cycle 1.
    { erewrite decRef_live in Hrun by done. injection Hrun as <-.
      intros x enx. unfold decremented. simpl. rewrite lookup_insert.
      case_decide as Hx; [|by apply Hng].
      intros _ [= <-]. simpl. rewrite Hrem. split; [lia|done]. }
    erewrite decRef_last in Hrun by done. injection Hrun as <-.
    intros x enx. simpl. apply Hdrop.
    intros y Hy. by rewrite lookup_insert_ne.
Qed.

(** ** What a watcher that starts is told *)

(** The store after a mutation: as it was, or with one entry rewritten
    that keeps its [creationRevno], or with one new entry created at the new
    [latestRevno]. *)
Lemma mutate_store_shape m a a' :
  wf a → latestRevno a < maxInt64 → mutate m a = (Ok tt, a') →
  store a' = store a ∨
  (∃ el en en', store a !! el = Some en ∧
     store a' = <[el := en']> (store a) ∧
     creationRevno en' = creationRevno en) ∨
  (∃ en', store a' = <[fresh (dom (store a)) := en']> (store a) ∧
     creationRevno en' = latestRevno a + 1).
Proof.
  intros Hwf Hmax Hrun. pose proof (wf_latest _ Hwf) as Hlat.
  assert (Hadd : ∀ id i, add id i a = (Ok tt, a') →
    store a' = store a ∨
    (∃ el en en', store a !! el = Some en ∧
       store a' = <[el := en']> (store a) ∧
       creationRevno en' = creationRevno en) ∨
    (∃ en', store a' = <[fresh (dom (store a)) := en']> (store a) ∧
       creationRevno en' = latestRevno a + 1)).
  { intros id i Hadd.
    destruct (entities a !! id) as [el|] eqn:Hid.
    { rewrite add_duplicate in Hadd by eauto. discriminate. }
    rewrite add_fresh in Hadd by done. injection Hadd as <-. simpl.
    right. right. eexists. split; [done|]. simpl. by apply incr64_small. }
  destruct m as [id i|id i|id|entry id]; simpl in Hrun.
  - by eapply Hadd.
  - destruct (entities a !! id) as [el|] eqn:Hid; cycle 1.
    { rewrite update_absent in Hrun by done. by eapply Hadd. }
    destruct (wf_lookup _ _ _ Hwf Hid) as [Hel [eno Heno]].
    destruct (decide (i = info eno)) as [Hi|Hi].
    { erewrite update_same in Hrun by done. injection Hrun as <-. by left. }
    erewrite update_changed in Hrun by done. injection Hrun as <-. simpl.
    right. left. by eexists el, eno, _.
  - destruct (entities a !! id) as [el|] eqn:Hid; cycle 1.
    { rewrite markRemoved_absent in Hrun by done.
      injection Hrun as <-. by left. }
    destruct (wf_lookup _ _ _ Hwf Hid) as [Hel [eno Heno]].
    destruct (removed eno) eqn:Hrem.
    { erewrite markRemoved_removed in Hrun by done.
      injection Hrun as <-. by left. }
    destruct (decide (refCount eno = 0)) as [Hc|Hc].
    + erewrite markRemoved_unseen in Hrun by done.
      injection Hrun as <-. by left.
    + erewrite markRemoved_seen in Hrun by done. injection Hrun as <-. simpl.
      right. left. by eexists el, eno, _.
  - destruct (store a !! entry) as [eno|] eqn:Heno; cycle 1.
    { by rewrite decRef_dangling in Hrun. }
    right. left. exists entry, eno.
    destruct (decide (0 < decr64 (refCount eno))) as [Hpos|Hpos].
    { erewrite decRef_positive in Hrun by done. injection Hrun as <-.
      by eexists. }
    destruct (decide (decr64 (refCount eno) < 0)) as [Hneg|Hneg].
    { by erewrite decRef_negative in Hrun. }
    assert (Hc : decr64 (refCount eno) = 0) by lia.
    destruct (removed eno) eqn:Hrem; cycle 1.
    { erewrite decRef_live in Hrun by done. injection Hrun as <-.
      by eexists. }
    destruct (entities a !! id) as [el|] eqn:Hid; cycle 1.
    { by erewrite decRef_missing in Hrun. }
    erewrite decRef_last in Hrun by done. injection Hrun as <-.
    by eexists.
Qed.

Lemma reachable_bornLater a : reachable a → bornLater a.
Proof.
  induction 1 as [|m a a' Hreach IH Hmax Hrun|e en a _ IH Hen].
  - intros e en. simpl. by rewrite lookup_empty.
  - pose proof (reachable_wf _ Hreach) as Hwf.
    pose proof (wf_latest _ Hwf) as Hlat. unfold bornLater in *.
    destruct (mutate_store_shape _ _ _ Hwf Hmax Hrun)
      as [->|[(el & en & en' & Hen & -> & Hcre)|(en' & -> & Hcre)]];
      [done| |].
    + intros x enx. rewrite lookup_insert. case_decide; [|apply IH].
      intros [= <-]. rewrite Hcre. by eapply IH.
    + intros x enx. rewrite lookup_insert. case_decide; [|apply IH].
      intros [= <-]. lia.
  - intros x enx. simpl. rewrite lookup_insert. case_decide; [|apply IH].
    intros [= <-]. simpl. by eapply IH.
Qed.

Lemma filter_iff_elem_of {A : Type} (P1 P2 : A → Prop)
  `{!∀ x, Decision (P1 x), !∀ x, Decision (P2 x)} (l : list A) :
  (∀ x, x ∈ l → P1 x ↔ P2 x) → filter P1 l = filter P2 l.
Proof.
  induction l as [|x l IH]; intros Hiff; [done|].
  rewrite !filter_cons.
  rewrite IH by (intros; apply Hiff; by right).
  destruct (decide (P1 x)) as [H1|H1], (decide (P2 x)) as [H2|H2];
    try done; exfalso; apply (Hiff x) in H1 || apply (Hiff x) in H2;
    done || left.
Qed.

(** X13. A watcher that starts is at revno 0: in any allInfo the code can
    build it is told of exactly the entities of the list that are not removed,
    the one changed longest ago first, and of no removal. *)
Theorem changesSince_zero_live a :
  reachable a →
  let live := reverse (filter (λ en, removed en = false) (entriesOf a)) in
  changesSince 0 a = (Ok (toDelta <$> live), a) ∧
  Forall (λ d, Removed d = false) (toDelta <$> live).
Proof.
  intros Hreach live. pose proof (reachable_wf _ Hreach) as Hwf.
  pose proof (reachable_bornLater _ Hreach) as Hborn. split.
  - rewrite changesSince_wf by done. unfold live. do 4 f_equal.
    apply filter_iff_elem_of.
    intros en (e & He & Hen)%elem_of_entriesOf.
    pose proof (Hborn _ _ Hen). pose proof (wf_creation _ Hwf _ _ Hen).
    unfold reported, bornAndGoneSince. split.
    + intros [_ Hnot]. destruct (removed en); [|done].
      exfalso. apply Hnot. split; [done|lia].
    + intros Hrem. split; [lia|]. intros [? _]. congruence.
  - apply Forall_forall. intros d (en & -> & Hen)%list_elem_of_fmap.
    unfold live in Hen.
    by apply elem_of_reverse, list_elem_of_filter in Hen as [? _].
Qed.

(** ** Updates of one entity coalesce *)

Lemma forM__app {S A : Type} (f : A → proc S unit) (l1 l2 : list A) (s : S) :
  forM_ f (l1 ++ l2) s =
    match forM_ f l1 s with
    | (Ok _, s1) => forM_ f l2 s1
    | (Panic msg, s1) => (Panic msg, s1)
    | (OutOfFuel, s1) => (OutOfFuel, s1)
    end.
Proof.
  revert s. induction l1 as [|x l1 IH]; intros s; simpl; [done|].
  proc_unfold. destruct (f x s) as [[[]| |] s1]; [apply IH|done|done].
Qed.

Lemma update_coalesces r id i a a' :
  wf a → latestRevno a < maxInt64 → r ≤ latestRevno a →
  quietSince r a ∨ (∃ j, frontChange r id j a) →
  update id i a = (Ok tt, a') →
  quietSince r a' ∨ frontChange r id i a'.
Proof.
  intros Hwf Hmax Hr Hstate Hrun. pose proof (wf_latest _ Hwf) as Hlat.
  destruct (entities a !! id) as [el|] eqn:Hid; cycle 1.
  - destruct Hstate as [Hq|(j & ? & ? & ? & _ & ? & _)]; [|congruence].
    rewrite update_absent, add_fresh in Hrun by done.
    rewrite incr64_small in Hrun by done. injection Hrun as <-.
    assert (Hfresh : fresh (dom (store a)) ∉ list_ a).
    { intros [en Hen]%(wf_store _ Hwf).
      apply (is_fresh (dom (store a))). apply elem_of_dom. eauto. }
    right. eexists _, _, _. simpl.
    split_and!; [done|apply lookup_insert_eq|apply lookup_insert_eq|done| |].
    + intros x Hx. unfold revnoAt. simpl.
      rewrite lookup_insert_ne by (by intros <-). by apply Hq.
    + split; simpl; [lia|]. by intros [? _].
  - destruct (wf_lookup _ _ _ Hwf Hid) as [Hel [eno Heno]].
    destruct (decide (i = info eno)) as [Hi|Hi].
    + erewrite update_same in Hrun by done. injection Hrun as <-.
      destruct Hstate as [Hq|(j & el0 & l & en & Hl & Hid0 & Hen & Hj & Hrest)];
        [by left|right].
      rewrite Hid in Hid0. injection Hid0 as <-.
      rewrite Heno in Hen. injection Hen as <-.
      by exists el, l, eno.
    + erewrite update_changed in Hrun by done.
      rewrite incr64_small in Hrun by done.
      unfold listMoveToFront in Hrun. rewrite decide_True in Hrun by done.
      injection Hrun as <-.
      right. eexists _, _, _. simpl.
      split_and!; [done|done|apply lookup_insert_eq|done| |].
      * intros x [Hne Hx]%listRemove_elem_of. unfold revnoAt. simpl.
        rewrite lookup_insert_ne by done.
        destruct Hstate
          as [Hq|(j & el0 & l & en & Hl & Hid0 & _ & _ & Hold & _)];
          [by apply Hq|].
        rewrite Hid in Hid0. injection Hid0 as <-.
        rewrite Hl in Hx. apply elem_of_cons in Hx as [?|Hx]; [done|].
        by apply Hold.
      * split; simpl; [lia|]. intros [Hrem Hcre]. simpl in *.
        destruct Hstate
          as [Hq|(j & el0 & l & en & Hl & Hid0 & Hen & _ & _ & _ & Hnot)].
        -- specialize (Hq el Hel). rewrite (revnoAt_Some _ _ _ Heno) in Hq.
           pose proof (wf_creation _ Hwf _ _ Heno). lia.
        -- rewrite Hid in Hid0. injection Hid0 as <-.
           rewrite Heno in Hen. injection Hen as <-.
           by apply Hnot.
Qed.

Lemma updates_coalesce_state r id (infos : list EntityInfo) a :
  wf a → latestRevno a + Z.of_nat (length infos) ≤ maxInt64 → r ≤ latestRevno a →
  quietSince r a →
  ∃ a', forM_ (update id) infos a = (Ok tt, a') ∧ wf a' ∧
    latestRevno a ≤ latestRevno a' ≤ latestRevno a + Z.of_nat (length infos) ∧
    (quietSince r a' ∨ ∃ j, last infos = Some j ∧ frontChange r id j a').
Proof.
  intros Hwf Hmax Hr Hq. induction infos as [|i infos IH] using rev_ind.
  { exists a. simpl. split_and!; try done; try lia. by left. }
  rewrite length_app, Nat2Z.inj_add in Hmax. simpl in Hmax.
  destruct IH as (a1 & Hrun1 & Hwf1 & Hlat1 & Hstate1); [lia|].
  assert (Hmax1 : latestRevno a1 < maxInt64) by lia.
  destruct (update_total id i a1 Hwf1) as [a' Hrun].
  exists a'. rewrite forM__app, Hrun1. simpl. proc_unfold. rewrite Hrun.
  split; [done|]. split; [by eapply update_wf|].
  rewrite length_app, Nat2Z.inj_add. simpl.
  split.
  { destruct (mutate_cases (Update id i) _ _ Hwf1 Hmax1 Hrun) as [?|[? _]];
      lia. }
  rewrite last_snoc.
  destruct (update_coalesces r id i a1 a' Hwf1 Hmax1) as [?|?];
    [lia| |done|by left|right; by exists i].
  destruct Hstate1 as [?|(j & _ & ?)]; [by left|right; by exists j].
Qed.

(** X16. Any number of updates of one entity, whatever the informations, leave
    for a watcher that was up to date before them one delta at most, and it
    carries the information of the last update. *)
Theorem updates_coalesce id (infos : list EntityInfo) a :
  wf a → latestRevno a + Z.of_nat (length infos) ≤ maxInt64 →
  ∃ a', forM_ (update id) infos a = (Ok tt, a') ∧
    (changesSince (latestRevno a) a' = (Ok [], a') ∨
     ∃ b j, last infos = Some j ∧
       changesSince (latestRevno a) a' = (Ok [mkDelta b j], a')).
Proof.
  intros Hwf Hmax.
  destruct (updates_coalesce_state (latestRevno a) id infos a)
    as (a' & Hrun & Hwf' & _ & Hstate); [done|done|lia| |].
  { intros x Hx. by apply wf_bound. }
  exists a'. split; [done|].
  destruct Hstate as [Hq|(j & Hlast & el & l & en & Hl & _ & Hen & Hj & Hold
                           & Hrep)].
  - left. rewrite changesSince_wf by done. do 2 f_equal.
    rewrite filter_none; [done|].
    apply Forall_forall. intros y (x & Hx & Hy)%elem_of_entriesOf [Hnew _].
    specialize (Hq x Hx). rewrite (revnoAt_Some _ _ _ Hy) in Hq. lia.
  - right. exists (removed en), j. split; [done|].
    rewrite (changesSince_front _ _ el l en) by done.
    unfold toDelta. by rewrite Hj.
Qed.

(** ** The loop keeps its state steady *)

Lemma loopFor_steady evs aw :
  steady aw →
  latestRevno (all aw) + Z.of_nat (length evs) ≤ maxInt64 →
  let out := loopFor evs aw in
  steady out.2 ∧ out.1 ≠ OutOfFuel ∧
  latestRevno (all aw) ≤ latestRevno (all out.2)
    ≤ latestRevno (all aw) + Z.of_nat (length evs).
Proof.
  revert aw. induction evs as [|[ev ks] evs IH]; intros aw Hst Hmax.
  { simpl. split_and!; try done; lia. }
  cbn [length] in *. rewrite Nat2Z.inj_succ in *. cbn [loopFor].
  destruct (loopIteration_steady ev ks aw Hst) as (Hst1 & Hret1 & Hlat1);
    [lia|].
  proc_unfold. change (bind ?f ?m ?s) with (bind f m s) in *.
  destruct (loopIteration ev ks aw) as [[[err|]|msg|] aw1]; simpl in *;
    try (split_and!; try done; lia).
  destruct (IH aw1 Hst1) as (Hst2 & Hret2 & Hlat2); [lia|].
  split_and!; try done; lia.
Qed.

(** X1. Through the whole of [loop], whatever the events and the orders of the
    passes of [respond], the allInfo stays well-formed (sorted list, map and
    list in step), every request waits under the watcher it came from, the
    loops of [seen] and [leave] end, and [latestRevno] goes up by one per
    event at most - provided [getAll] leaves a well-formed allInfo and the
    counter stays within [int64]. *)
Theorem loop_keeps_steady getAll evs aw og a0 :
  chainsOwned aw → getAll (all aw) = (og, a0) → og ≠ OutOfFuel →
  wf a0 → latestRevno a0 + Z.of_nat (length evs) ≤ maxInt64 →
  let out := loop getAll evs aw in
  steady out.2 ∧ out.1 ≠ OutOfFuel ∧
  latestRevno a0 ≤ latestRevno (all out.2)
    ≤ latestRevno a0 + Z.of_nat (length evs).
Proof.
  intros Hown Hget Hog Hwf Hmax. unfold loop, onAll. proc_unfold.
  rewrite Hget.
  assert (Hst : steady (set_all a0 aw)) by done.
  destruct og as [[err|]|msg|]; simpl; try done;
    try (split_and!; try done; lia).
  apply (loopFor_steady evs (set_all a0 aw) Hst Hmax).
Qed.


(** ** Stopping a watcher *)

(** X3. A stop request of a watcher that is not stopped sends [false] to each
    of its outstanding requests, the last received first, takes the watcher
    off the waiting map and marks it stopped, its revno as it was; on the
    allInfo it does bookkeeping only. From then on a request of the watcher is
    answered [false] at once if it has a reply channel and has no other
    effect, and [respond] has nothing to do for the watcher. *)
Theorem handle_stop_releases req aw :
  w_stopped (watcherAt aw (req_w req)) = false → reply req = None →
  let w := req_w req in
  let aw' := (handle req aw).2 in
  sent aw' =
    sent aw ++ ((λ r, (r, false)) <$> default [] (waiting aw !! w)) ∧
  waiting aw' = delete w (waiting aw) ∧
  watcherAt aw' w = mkWatcher (w_revno (watcherAt aw w)) true ∧
  bookkeeps (all aw) (all aw') ∧
  (∀ nreq, req_w nreq = w →
     handle nreq aw' =
       (Ok tt, match reply nreq with
               | Some _ => set_sent (λ s, s ++ [(nreq, false)]) aw'
               | None => aw'
               end)) ∧
  respondAt w aw' = (Ok tt, aw').
Proof.
  intros Hst Hreply w aw'. unfold aw', w.
  destruct (handle_stop req aw Hst Hreply) as (o & a' & -> & Hb & _). simpl.
  split_and!; try done.
  - unfold watcherAt at 1. simpl. by rewrite lookup_insert_eq.
  - intros nreq Hw. apply handle_stopped. rewrite Hw.
    unfold watcherAt at 1. simpl. by rewrite lookup_insert_eq.
  - unfold respondAt. proc_unfold. simpl. by rewrite lookup_delete_eq.
Qed.

(** ** What respond sends *)

Lemma respondAt_sends k aw :
  ∃ new, sent (respondAt k aw).2 = sent aw ++ new ∧
    (new = [] ∨
     ∃ req rest cs, waiting aw !! k = Some (req :: rest) ∧ cs ≠ [] ∧
       (changesSince (w_revno (watcherAt aw k)) (all aw)).1 = Ok cs ∧
       new = [(set_changes cs req, true)]).
Proof.
  unfold respondAt. proc_unfold.
  destruct (waiting aw !! k) as [[|req rest]|] eqn:Hk;
    try (exists []; rewrite app_nil_r; split; [done|by left]).
  destruct (changesSince (w_revno (watcherAt aw k)) (all aw)) as [oc ac]
    eqn:Hch.
  assert (Hcase : (∃ cs, oc = Ok cs ∧ cs ≠ []) ∨
                  oc = Ok [] ∨ (∀ cs, oc ≠ Ok cs)).
  { destruct oc as [[|c cs]| |];
      [by right; left|left; by exists (c :: cs)|by right; right..]. }
  destruct Hcase as [(cs & -> & Hne)|Hcase].
  - destruct (respondOne_serves k req rest aw cs) as (o & a' & -> & _);
      [by rewrite Hch|done|].
    eexists. split; [done|]. right. exists req, rest, cs.
    split_and!; try done; by rewrite ?Hch.
  - destruct (respondOne_idle k req rest aw oc) as [o ->];
      [by rewrite Hch|done|].
    exists []. rewrite app_nil_r. split; [done|by left].
Qed.

(** X4. Whatever the state and the order of the pass, [respond] sends [true]
    only, each time with a request that holds a non-empty list of changes,
    once per key at most; on the allInfo it does bookkeeping only, and it
    leaves the backing alone. *)
Theorem respond_sends_changes ks aw :
  let aw' := (respond ks aw).2 in
  ∃ new, sent aw' = sent aw ++ new ∧
    Forall (λ ev, ev.2 = true ∧ changes ev.1 ≠ []) new ∧
    (length new ≤ length ks)%nat ∧
    bookkeeps (all aw) (all aw') ∧ backing aw' = backing aw.
Proof.
  intros aw'. unfold aw'. clear aw'.
  destruct (respond_bookkeeps ks aw) as [Hb Hback].
  enough (Hsent : ∃ new, sent (respond ks aw).2 = sent aw ++ new ∧
    Forall (λ ev, ev.2 = true ∧ changes ev.1 ≠ []) new ∧
    (length new ≤ length ks)%nat)
    by (destruct Hsent as (new & ? & ? & ?); by exists new).
  clear Hb Hback. revert aw. induction ks as [|k ks IH]; intros aw.
  { exists []. rewrite app_nil_r. split_and!; [done|constructor|done]. }
  rewrite respond_cons.
  destruct (respondAt_sends k aw) as (new1 & Hsent1 & Hnew1).
  assert (Hall1 : Forall (λ ev, ev.2 = true ∧ changes ev.1 ≠ []) new1 ∧
                  (length new1 ≤ 1)%nat).
  { destruct Hnew1 as [->|(req & rest & cs & _ & Hne & _ & ->)].
    - split; [constructor|simpl; lia].
    - split; [by repeat constructor|simpl; lia]. }
  destruct Hall1 as [Hall1 Hlen1].
  destruct (respondAt k aw) as [[[]|msg|] aw1]; simpl in *;
    try (exists new1; split_and!; [done|done|lia]).
  destruct (IH aw1) as (new2 & Hsent2 & Hall2 & Hlen2).
  exists (new1 ++ new2). split_and!.
  - by rewrite Hsent2, Hsent1, app_assoc.
  - by apply Forall_app.
  - rewrite length_app. lia.
Qed.

(** ** No change is told twice *)

Lemma respondAt_up_to_date w aw :
  wf (all aw) → latestRevno (all aw) ≤ w_revno (watcherAt aw w) →
  ∃ o, respondAt w aw = (o, aw).
Proof.
  intros Hwf Hrev. unfold respondAt. proc_unfold.
  destruct (waiting aw !! w) as [[|req rest]|]; eauto.
  eapply respondOne_idle; [done|]. left.
  by rewrite changesSince_none_newer.
Qed.

Lemma respond_quiet ks aw w :
  steady aw → latestRevno (all aw) ≤ w_revno (watcherAt aw w) →
  ∃ new, sent (respond ks aw).2 = sent aw ++ new ∧
         notServed aw (respond ks aw).2 new w.
Proof.
  revert aw. induction ks as [|k ks IH]; intros aw [Hwf Hown] Hrev.
  { exists []. rewrite app_nil_r. split; [done|apply notServed_refl]. }
  rewrite respond_cons.
  assert (Hstep : ∃ o aw1 new1, respondAt k aw = (o, aw1) ∧
    sent aw1 = sent aw ++ new1 ∧ notServed aw aw1 new1 w ∧ steady aw1 ∧
    latestRevno (all aw1) = latestRevno (all aw)).
  { destruct (decide (k = w)) as [->|Hne].
    - destruct (respondAt_up_to_date w aw Hwf Hrev) as [o Hat].
      exists o, aw, []. rewrite app_nil_r.
      split_and!; try done.
    - destruct (respondAt_bookkeeps k aw) as [Hb _].
      destruct (respondAt_spec k aw Hown)
        as (o & aw1 & new1 & Hat & Hsent1 & Hlat1 & Hown1 & Hothers & _).
      rewrite Hat in Hb. simpl in Hb.
      exists o, aw1, new1. split_and!; try done.
      + by apply Hothers.
      + split; [by apply (bk_wf _ _ Hb)|done]. }
  destruct Hstep as (o & aw1 & new1 & -> & Hsent1 & Hns1 & Hst1 & Hlat1).
  destruct o as [[]|msg|]; simpl; try by exists new1.
  destruct (IH aw1 Hst1) as (new2 & Hsent2 & Hns2).
  { destruct Hns1 as (_ & _ & ->). lia. }
  exists (new1 ++ new2). split; [by rewrite Hsent2, Hsent1, app_assoc|].
  by eapply notServed_trans.
Qed.

(** X5. A watcher whose revno is [latestRevno] is not served by [respond]:
    nothing is sent to its requests, which go on waiting. *)
Theorem respond_skips_up_to_date ks aw w :
  steady aw → latestRevno (all aw) ≤ w_revno (watcherAt aw w) →
  ∃ new, sent (respond ks aw).2 = sent aw ++ new ∧
         notServed aw (respond ks aw).2 new w.
Proof. apply respond_quiet. Qed.

(** X6. After a pass of [respond] that served a watcher, a further pass, with
    no mutation in between, sends nothing to the requests of that watcher: the
    changes it was told are not told again. *)
Theorem respond_no_repeat ks ks2 aw w req rest new :
  steady aw →
  sent (respond ks aw).2 = sent aw ++ new →
  servedHead aw (respond ks aw).2 new w req rest →
  let aw1 := (respond ks aw).2 in
  ∃ new2, sent (respond ks2 aw1).2 = sent aw1 ++ new2 ∧
          notServed aw1 (respond ks2 aw1).2 new2 w.
Proof.
  intros [Hwf Hown] Hsent (cs & _ & _ & _ & Hrev) aw1.
  destruct (respond_bookkeeps ks aw) as [Hb _].
  apply respond_quiet.
  - split; [by apply (bk_wf _ _ Hb)|by apply respond_chainsOwned].
  - unfold aw1. rewrite Hrev. simpl. rewrite (bk_latest _ _ Hb). lia.
Qed.

(** ** A Next request and the pass that follows *)



(** ** A watcher that is told everything and then leaves *)

Lemma decr64_incr64 c : - 2 ^ 63 ≤ c < 2 ^ 63 → decr64 (incr64 c) = c.
Proof.
  intros Hc. unfold decr64, incr64.
  destruct (decide (c = 2 ^ 63 - 1)) as [->|Hne]; [done|].
  rewrite (wrap64_small (c + 1)) by lia.
  rewrite wrap64_small by lia. lia.
Qed.

Lemma listAfter_app x (pre rest : list elem) :
  x ∉ pre → listAfter x (pre ++ x :: rest) = rest.
Proof.
  induction pre as [|y pre IH]; simpl.
  - intros _. by rewrite decide_True.
  - intros [Hne Hnin]%not_elem_of_cons. rewrite decide_False by done.
    by apply IH.
Qed.

Lemma set_store_id (a : allInfo) : set_store (λ st, st) a = a.
Proof. by destruct a. Qed.

(** A loop whose body rewrites the entry of its element and goes on: it
    returns, having rewritten the entries of the elements from the one it
    starts at to the back. *)
Lemma forEachFrom_rewrites body g (P : entityEntry → Prop) fuel pre rest a :
  (∀ b x en, store b !! x = Some en → P en →
             body x b = (Ok true, set_store (insert x (g en)) b)) →
  list_ a = pre ++ rest → NoDup (list_ a) →
  (∀ x, x ∈ rest → ∃ en, store a !! x = Some en ∧ P en) →
  (length rest ≤ fuel)%nat →
  forEachFrom fuel body (head rest) a =
    (Ok tt, set_store (rewriteAll g rest) a).
Proof.
  intros Hbody. revert fuel pre a.
  induction rest as [|x rest IH]; intros fuel pre a Hl Hnd Hst Hfuel.
  { simpl. destruct fuel; simpl; by rewrite set_store_id. }
  destruct fuel as [|fuel]; [simpl in Hfuel; lia|].
  destruct (Hst x) as (en & Hen & HP); [left|].
  simpl. proc_unfold. rewrite (Hbody a x en Hen HP).
  rewrite Hl in Hnd. pose proof Hnd as Hnd'.
  apply NoDup_app in Hnd' as (_ & Hdisj & [Hx _]%NoDup_cons).
  unfold listNext. rewrite Hl, listAfter_app; cycle 1.
  { intros Hin. apply (Hdisj x Hin). left. }
  rewrite (IH fuel (pre ++ [x]) (set_store (insert x (g en)) a)).
  - unfold set_store. simpl. by rewrite Hen.
  - simpl. by rewrite Hl, <- app_assoc.
  - simpl. by rewrite Hl.
  - intros y Hy. simpl. rewrite lookup_insert_ne by (by intros <-).
    apply Hst. by right.
  - simpl in Hfuel. lia.
Qed.

Lemma forEach_rewrites body g (P : entityEntry → Prop) a :
  (∀ b x en, store b !! x = Some en → P en →
             body x b = (Ok true, set_store (insert x (g en)) b)) →
  NoDup (list_ a) →
  (∀ x, x ∈ list_ a → ∃ en, store a !! x = Some en ∧ P en) →
  forEach body a = (Ok tt, set_store (rewriteAll g (list_ a)) a).
Proof.
  intros Hbody Hnd Hst. unfold forEach. proc_unfold.
  by apply (forEachFrom_rewrites body g P _ [] (list_ a) a).
Qed.

Lemma rewriteAll_notin g (l : list elem) st y :
  y ∉ l → rewriteAll g l st !! y = st !! y.
Proof.
  revert st. induction l as [|x l IH]; intros st; [done|].
  intros [Hne Hnin]%not_elem_of_cons. simpl. rewrite IH by done.
  destruct (st !! x); [by rewrite lookup_insert_ne|done].
Qed.

Lemma rewriteAll_lookup g (l : list elem) st y :
  NoDup l → y ∈ l → rewriteAll g l st !! y = g <$> st !! y.
Proof.
  intros Hnd. revert st. induction Hnd as [|x l Hx Hnd IH]; intros st Hy.
  { by apply elem_of_nil in Hy. }
  simpl. destruct (decide (y = x)) as [->|Hne].
  - rewrite rewriteAll_notin by done.
    destruct (st !! x) eqn:Hst; [by rewrite lookup_insert_eq|by rewrite Hst].
  - apply elem_of_cons in Hy as [?|Hy]; [done|]. rewrite IH by done.
    destruct (st !! x); [by rewrite lookup_insert_ne|done].
Qed.

Lemma seenBody_counts idFor b x en :
  store b !! x = Some en → 0 < creationRevno en ≤ revno en →
  seenBody idFor 0 x b = (Ok true, set_store (insert x (counted en)) b).
Proof.
  intros Hen Hrev. unfold seenBody, readEntry, writeEntry. proc_unfold.
  rewrite Hen. rewrite decide_False by lia. rewrite decide_True by lia.
  unfold counted. destruct (removed en); simpl; [|done].
  unfold set_store. rewrite insert_id by done. by destruct b.
Qed.

Lemma leaveBody_releases idFor r b x en :
  store b !! x = Some en →
  creationRevno en ≤ r ∧ revno en ≤ r ∧
    (removed en = false → 0 ≤ decr64 (refCount en)) →
  leaveBody idFor r x b = (Ok true, set_store (insert x (released en)) b).
Proof.
  intros Hen (Hcre & Hrev & Hcount).
  unfold leaveBody, readEntry. proc_unfold.
  rewrite Hen. rewrite decide_True by done.
  unfold released. destruct (removed en) eqn:Hrem; simpl.
  - rewrite bool_decide_eq_true_2 by done.
    unfold set_store. rewrite insert_id by done. by destruct b.
  - specialize (Hcount eq_refl).
    destruct (decide (0 < decr64 (refCount en))) as [Hpos|Hpos].
    + by erewrite decRef_positive.
    + erewrite decRef_live; [done|done|lia|done].
Qed.

(** X8. A watcher at revno 0 that has been told of everything and then leaves:
    [seen 0] counts it on every entry of the list that is not removed, and
    [leave], the watcher being at [latestRevno], takes these counts back; both
    return and the allInfo is what it was before. *)
Theorem seen_then_leave w aw :
  reachable (all aw) → noGhost (all aw) →
  w_revno (watcherAt aw w) = latestRevno (all aw) →
  ∃ aw1,
    seen 0 aw = (Ok tt, aw1) ∧
    store (all aw1) = rewriteAll counted (list_ (all aw)) (store (all aw)) ∧
    leave w aw1 = (Ok tt, aw).
Proof.
  intros Hreach Hng Hrev.
  pose proof (reachable_wf _ Hreach) as Hwf.
  pose proof (reachable_bornLater _ Hreach) as Hborn.
  set (a := all aw) in *.
  set (a1 := set_store (rewriteAll counted (list_ a)) a).
  assert (Hseen : forEach (seenBody (entityIdForInfo (backing aw)) 0) a
                  = (Ok tt, a1)).
  { apply (forEach_rewrites _ counted
             (λ en, 0 < creationRevno en ≤ revno en)).
    - intros b x en. apply seenBody_counts.
    - by apply wf_nodup.
    - intros x Hx. destruct (wf_store _ Hwf x Hx) as [en Hen].
      exists en. split; [done|].
      split; [by eapply Hborn|by eapply wf_creation]. }
  assert (Hleave :
    forEach (leaveBody (entityIdForInfo (backing aw)) (latestRevno a)) a1
    = (Ok tt, set_store (rewriteAll released (list_ a)) a1)).
  { apply (forEach_rewrites _ released
             (λ en, creationRevno en ≤ latestRevno a ∧
                    revno en ≤ latestRevno a ∧
                    (removed en = false → 0 ≤ decr64 (refCount en))) a1).
    - intros b x en. apply leaveBody_releases.
    - change (list_ a1) with (list_ a). by apply wf_nodup.
    - change (list_ a1) with (list_ a).
      intros x Hx. destruct (wf_store _ Hwf x Hx) as [en Hen].
      exists (counted en). split.
      { simpl. rewrite rewriteAll_lookup by (done || by apply wf_nodup).
        by rewrite Hen. }
      pose proof (wf_creation _ Hwf _ _ Hen).
      pose proof (wf_bound _ Hwf _ Hx) as Hb.
      rewrite (revnoAt_Some _ _ _ Hen) in Hb.
      destruct (Hng x en Hx Hen) as [Hrange _].
      unfold counted. destruct (removed en) eqn:Hrem; simpl.
      + split_and!; [lia|done|congruence].
      + split_and!; [lia|done|]. intros _.
        rewrite decr64_incr64; unfold maxInt64 in *; lia. }
  assert (Hback : set_store (rewriteAll released (list_ a)) a1 = a).
  { unfold a1, set_store. simpl.
    assert (Hst : rewriteAll released (list_ a)
                    (rewriteAll counted (list_ a) (store a)) = store a).
    { apply map_eq. intros y.
      destruct (decide (y ∈ list_ a)) as [Hy|Hy]; cycle 1.
      { by rewrite !rewriteAll_notin. }
      rewrite !rewriteAll_lookup by (done || by apply wf_nodup).
      destruct (wf_store _ Hwf y Hy) as [en Hen]. rewrite Hen. simpl.
      f_equal. destruct (Hng y en Hy Hen) as [Hrange _].
      unfold released, counted. destruct (removed en) eqn:Hrem.
      - by rewrite Hrem.
      - simpl. rewrite Hrem. unfold set_refCount. simpl.
        rewrite decr64_incr64 by (unfold maxInt64 in *; lia).
        by destruct en. }
    rewrite Hst. by destruct a. }
  exists (set_all a1 aw). split_and!.
  - unfold seen, onAll. proc_unfold. fold a. by rewrite Hseen.
  - done.
  - unfold leave, readWatcher, onAll. proc_unfold. simpl.
    unfold watcherAt in Hrev. rewrite Hrev. rewrite Hleave, Hback.
    unfold a. by destruct aw.
Qed.

(** X9. Stopping a watcher that has been told nothing - it is at revno 0 -
    takes back no reference: [leave] returns and the allInfo is as it was. *)
Theorem leave_untold w aw :
  reachable (all aw) → w_revno (watcherAt aw w) ≤ 0 →
  leave w aw = (Ok tt, aw).
Proof.
  intros Hreach Hrev.
  pose proof (reachable_wf _ Hreach) as Hwf.
  pose proof (reachable_bornLater _ Hreach) as Hborn.
  unfold leave, readWatcher, onAll. proc_unfold.
  fold (watcherAt aw w).
  rewrite (forEach_rewrites _ (λ en, en) (λ en, 0 < creationRevno en)).
  - simpl. assert (Hst : rewriteAll (λ en, en) (list_ (all aw))
                           (store (all aw)) = store (all aw)).
    { apply map_eq. intros y.
      destruct (decide (y ∈ list_ (all aw))) as [Hy|Hy].
      - rewrite rewriteAll_lookup by (done || by apply wf_nodup).
        by destruct (store (all aw) !! y).
      - by rewrite rewriteAll_notin. }
    unfold set_store. rewrite Hst. destruct aw as [b a wt ws s].
    simpl. by destruct a.
  - intros b x en Hen Hpos. unfold leaveBody, readEntry. proc_unfold.
    rewrite Hen. rewrite decide_False by lia.
    unfold set_store. rewrite insert_id by done. by destruct b.
  - by apply wf_nodup.
  - intros x Hx. destruct (wf_store _ Hwf x Hx) as [en Hen].
    exists en. split; [done|]. by eapply Hborn.
Qed.

End Megawatcher.

(** * Scenarios

    Entity keys are numbers and entity informations are strings here. *)

Definition exService : entityId (Key := nat) := mkEntityId "service" 1%nat.
Definition exUnit : entityId (Key := nat) := mkEntityId "unit" 0%nat.

(** A backing that has lost its connection when asked for the service, and
    knows of no other entity. *)
Definition exBacking : allWatcherBacking (Key := nat) (EntityInfo := string) :=
  mkBacking (λ i, if decide (i = "unit-0") then exUnit else exService)
    (λ id, if decide (id = exService) then inr (ErrOther "connection lost")
           else inr ErrNotFound).

Definition exEmpty : allInfo (Key := nat) (EntityInfo := string) := newAllInfo.

(** One service was added. *)
Definition exOne : allInfo (Key := nat) (EntityInfo := string) :=
  (add exService "svc-A" exEmpty).2.

(** A unit was added after the service. *)
Definition exTwo : allInfo (Key := nat) (EntityInfo := string) :=
  (add exUnit "unit-0" exOne).2.

(** Two Next requests of watcher 7, [exNext1] made before [exNext2]. *)
Definition exNext1 : allRequest (EntityInfo := string) :=
  mkRequest 7%nat (Some 1%nat) [].
Definition exNext2 : allRequest (EntityInfo := string) :=
  mkRequest 7%nat (Some 2%nat) [].

(** The allWatcher after it handled [exNext1], then [exNext2], and then
    learned of the service. *)
Definition exWaiting : allWatcher (Key := nat) (EntityInfo := string) :=
  (onAll (add exService "svc-A")
     (handle exNext2 (handle exNext1 (newAllWatcher exBacking)).2).2).2.

(** The state a procedure leaves. *)
Definition after {S A : Type} (m : proc S A) (s : S) : S := (m s).2.

(** Two watchers, 1 and 2: the unit is added and watcher 1 is told; the unit
    is removed; watcher 2 asks and waits; watcher 1 asks and is told. *)
Definition exRemoval : allWatcher (Key := nat) (EntityInfo := string) :=
  let told :=
    after (respond [1%nat])
      (after (handle (mkRequest 1%nat (Some 1%nat) []))
         (after (onAll (update exUnit "unit-0")) (newAllWatcher exBacking))) in
  let asked :=
    after (respond [2%nat; 1%nat])
      (after (handle (mkRequest 2%nat (Some 2%nat) []))
         (after (onAll (markRemoved exUnit)) told)) in
  after (respond [2%nat; 1%nat])
    (after (handle (mkRequest 1%nat (Some 3%nat) [])) asked).

Lemma exOne_wf : wf exOne.
Proof.
  eapply (add_wf exService "svc-A" exEmpty);
    [apply wf_newAllInfo|done|reflexivity].
Qed.

Lemma exTwo_wf : wf exTwo.
Proof.
  eapply (add_wf exUnit "unit-0" exOne); [apply exOne_wf|done|reflexivity].
Qed.

Lemma exWaiting_owned : chainsOwned exWaiting.
Proof.
  intros w l. change (waiting exWaiting) with
    (<[7%nat := [exNext2; exNext1]]> (∅ : gmap watcher (list allRequest))).
  rewrite lookup_insert. case_decide; [|by rewrite lookup_empty].
  intros [= <-]. subst w. by repeat constructor.
Qed.

(** A watcher asking from revno 0 is given the two additions, oldest first;
    one asking from revno 1 the second only. *)
Example changes_of_two_additions :
  (changesSince 0 exTwo).1 =
    Ok [mkDelta false "svc-A"; mkDelta false "unit-0"] ∧
  (changesSince 1 exTwo).1 = Ok [mkDelta false "unit-0"] ∧
  (changesSince 2 exTwo).1 = Ok [].
Proof. by vm_compute. Qed.

(** Two updates between two calls of Next are one delta, with the last
    information. *)
Example coalesced_update :
  let a := after (update exService "svc-C")
             (after (update exService "svc-B") exOne) in
  (changesSince 1 a).1 = Ok [mkDelta false "svc-C"] ∧ latestRevno a = 3.
Proof. by vm_compute. Qed.

(** The removal is seen by the watcher that saw the unit alive, and by it
    alone; once it has seen it, the unit is gone from the allInfo. *)
Example removal_seen_by_one :
  sent exRemoval =
    [(mkRequest 1%nat (Some 1%nat) [mkDelta false "unit-0"], true);
     (mkRequest 1%nat (Some 3%nat) [mkDelta true "unit-0"], true)] ∧
  waiting exRemoval !! 2%nat = Some [mkRequest 2%nat (Some 2%nat) []] ∧
  waiting exRemoval !! 1%nat = None ∧
  list_ (all exRemoval) = [] ∧
  entities (all exRemoval) !! exUnit = None ∧
  w_revno (watcherAt exRemoval 1%nat) = 2 ∧
  w_revno (watcherAt exRemoval 2%nat) = 0.
Proof. by vm_compute. Qed.

(** A stop request answers [false] to the pending requests of the watcher
    and stops it; later requests are answered [false] at once. *)
Example stop_releases_requests :
  let aw := after (handle (mkRequest 7%nat None [])) exWaiting in
  sent aw = [(exNext2, false); (exNext1, false)] ∧
  waiting aw !! 7%nat = None ∧
  w_stopped (watcherAt aw 7%nat) = true ∧
  sent (after (handle exNext1) aw) =
    [(exNext2, false); (exNext1, false); (exNext1, false)].
Proof. by vm_compute. Qed.

(** The oldest pending request of watcher 7 is [exNext1], the last of its
    chain; a respond pass answers [exNext2] and leaves [exNext1] waiting. *)
Lemma respond_oldest_counterexample :
  let out := respond [7%nat] exWaiting in
  waiting exWaiting !! 7%nat = Some [exNext2; exNext1] ∧
  last [exNext2; exNext1] = Some exNext1 ∧
  out.1 = Ok tt ∧
  sent out.2 =
    [(set_changes [mkDelta false "svc-A"] exNext2, true)] ∧
  waiting out.2 !! 7%nat = Some [exNext1] ∧
  ¬ ∃ cs b, (set_changes cs exNext1, b) ∈ sent out.2.
Proof.
  split_and!; try (vm_compute; reflexivity).
  intros (cs & b & Hin).
  change (sent (respond [7%nat] exWaiting).2) with
    [(set_changes [mkDelta false "svc-A"] exNext2, true)] in Hin.
  apply list_elem_of_singleton in Hin.
  unfold set_changes in Hin. simpl in Hin. congruence.
Qed.

Lemma respond_serves_newest_witness :
  NoDup [7%nat] ∧ chainsOwned exWaiting ∧ NoDup (list_ (all exWaiting)) ∧
  waiting exWaiting !! 7%nat = Some [exNext2; exNext1] ∧
  ∃ o aw' new,
    respond [7%nat] exWaiting = (o, aw') ∧ o ≠ OutOfFuel ∧
    sent aw' = sent exWaiting ++ new ∧
    (servedHead exWaiting aw' new 7%nat exNext2 [exNext1] ∨
     notServed exWaiting aw' new 7%nat).
Proof.
  assert (H1 : NoDup [7%nat]) by (apply NoDup_singleton).
  assert (H2 : NoDup (list_ (all exWaiting))) by (apply NoDup_singleton).
  assert (H3 : waiting exWaiting !! 7%nat = Some [exNext2; exNext1])
    by reflexivity.
  split_and!; [done|apply exWaiting_owned|done|done|].
  exact (proj2 (proj2 (respond_serves_newest [7%nat] exWaiting 7%nat exNext2
                         [exNext1] H1 exWaiting_owned H2 H3))).
Defined.

(** Adding a service and marking it removed before anything saw it leaves
    an empty list, with [latestRevno] at 2. *)
Lemma latestRevno_max_counterexample :
  let a1 := (add exService "svc-A" exEmpty).2 in
  let a2 := (markRemoved exService a1).2 in
  add exService "svc-A" exEmpty = (Ok tt, a1) ∧
  markRemoved exService a1 = (Ok tt, a2) ∧
  list_ a2 = [] ∧ maxRevno a2 = 0 ∧ latestRevno a2 = 2 ∧
  latestRevno a2 ≠ maxRevno a2.
Proof. split_and!; try (vm_compute; reflexivity). by vm_compute. Qed.

Lemma latestRevno_bounds_revnos_witness :
  wf exOne ∧ latestRevno exOne < maxInt64 ∧
  mutate (Add exUnit "unit-0") exOne = (Ok tt, exTwo) ∧
  maxRevno exTwo ≤ latestRevno exTwo ∧
  latestRevno exTwo = maxRevno exTwo.
Proof.
  assert (Hmax : latestRevno exOne < maxInt64) by done.
  assert (Hrun : mutate (Add exUnit "unit-0") exOne = (Ok tt, exTwo))
    by reflexivity.
  destruct (latestRevno_bounds_revnos (Add exUnit "unit-0") exOne exTwo
              exOne_wf Hmax Hrun) as (Hle & _ & Heq).
  split_and!; [apply exOne_wf|done|done|done|].
  apply Heq; [done|vm_compute; lia].
Defined.

Lemma list_sorted_by_revno_witness :
  wf exOne ∧ latestRevno exOne < maxInt64 ∧
  mutate (Add exUnit "unit-0") exOne = (Ok tt, exTwo) ∧
  ∀ i x y, entryAt exTwo i = Some x → entryAt exTwo (S i) = Some y →
           revno x > revno y.
Proof.
  assert (Hmax : latestRevno exOne < maxInt64) by done.
  assert (Hrun : mutate (Add exUnit "unit-0") exOne = (Ok tt, exTwo))
    by reflexivity.
  split_and!; [apply exOne_wf|done|done|].
  exact (proj1 (list_sorted_by_revno (Add exUnit "unit-0") exOne exTwo
                  exOne_wf Hmax Hrun)).
Defined.

(** [delete] of an id that is not present returns. *)
Lemma delete_absent_counterexample :
  entities exOne !! exUnit = None ∧
  delete_ exUnit exOne = (Ok tt, exOne) ∧
  ¬ ∃ msg, (delete_ exUnit exOne).1 = Panic msg.
Proof.
  split_and!; try (vm_compute; reflexivity).
  intros [msg Hmsg]. vm_compute in Hmsg. discriminate.
Qed.

Lemma precondition_violations_witness :
  (add exService "svc-B" exOne).1 =
    Panic "adding new entry with duplicate id" ∧
  (decRef 0%nat exService exOne).1 = Panic "negative reference count" ∧
  delete_ exUnit exOne = (Ok tt, exOne).
Proof.
  destruct (precondition_violations exService "svc-B" 0%nat
              (mkEntry 1 1 false 0 "svc-A") exOne) as (Hadd & Hneg & _ & _).
  destruct (precondition_violations exUnit "unit-0" 0%nat
              (mkEntry 1 1 false 0 "svc-A") exOne) as (_ & _ & _ & Hdel).
  split_and!.
  - apply Hadd. by exists 0%nat.
  - apply Hneg; [reflexivity|done].
  - apply Hdel. reflexivity.
Defined.

Lemma changesSince_reports_witness :
  wf exTwo ∧
  changesSince 0 exTwo =
    (Ok [mkDelta false "svc-A"; mkDelta false "unit-0"], exTwo) ∧
  changesSince 1 exTwo = (Ok [mkDelta false "unit-0"], exTwo).
Proof.
  split; [apply exTwo_wf|].
  rewrite (proj1 (changesSince_reports 0 exTwo exTwo_wf)).
  rewrite (proj1 (changesSince_reports 1 exTwo exTwo_wf)).
  split; reflexivity.
Defined.

Lemma markRemoved_cases_witness :
  wf exOne ∧ latestRevno exOne < maxInt64 ∧
  ∃ a', markRemoved exService exOne = (Ok tt, a') ∧
        latestRevno a' = 2 ∧ list_ a' = [].
Proof.
  assert (Hmax : latestRevno exOne < maxInt64) by done.
  split_and!; [apply exOne_wf|done|].
  destruct (markRemoved_cases exService exOne exOne_wf Hmax)
    as (a' & Hrun & _).
  exists a'. split; [done|].
  vm_compute in Hrun. injection Hrun as <-. by split.
Defined.

Lemma add_markRemoved_no_delta_witness :
  wf exEmpty ∧ latestRevno exEmpty + 1 < maxInt64 ∧
  entities exEmpty !! exService = None ∧
  ∃ a1 a2,
    add exService "svc-A" exEmpty = (Ok tt, a1) ∧
    markRemoved exService a1 = (Ok tt, a2) ∧
    changesSince 0 a2 = (Ok [], a2).
Proof.
  assert (Hmax : latestRevno exEmpty + 1 < maxInt64) by done.
  assert (Hid : entities exEmpty !! exService = None) by reflexivity.
  split_and!; [apply wf_newAllInfo|done|done|].
  destruct (add_markRemoved_no_delta exService "svc-A" exEmpty
              wf_newAllInfo Hmax Hid)
    as (a1 & a2 & Hadd & Hrm & _ & _ & _ & _ & Hnone & _).
  exists a1, a2. split_and!; [done|done|]. by apply Hnone.
Defined.

Lemma update_same_info_noop_witness :
  wf exOne ∧ latestRevno exOne < maxInt64 ∧
  update exService "svc-A" exOne = (Ok tt, exOne) ∧
  ∃ a1 a2,
    update exService "svc-B" exOne = (Ok tt, a1) ∧
    update exService "svc-B" a1 = (Ok tt, a2) ∧
    changesSince 1 a2 = (Ok [mkDelta false "svc-B"], a2).
Proof.
  assert (Hmax : latestRevno exOne < maxInt64) by done.
  split_and!; [apply exOne_wf|done| |].
  - destruct (update_same_info_noop exService "svc-A" exOne exOne_wf Hmax)
      as (a1 & a2 & Hrun & _ & _ & Hcase).
    vm_compute in Hcase. destruct Hcase as [Ha1 _]. by rewrite Ha1 in Hrun.
  - destruct (update_same_info_noop exService "svc-B" exOne exOne_wf Hmax)
      as (a1 & a2 & H1 & H2 & _ & Hcase).
    exists a1, a2. split_and!; [done|done|]. exact Hcase.
Defined.

Lemma changed_cases_witness :
  wf (all (newAllWatcher exBacking)) ∧
  changed exService (newAllWatcher exBacking) =
    (Ok (Some (ErrOther "connection lost")), newAllWatcher exBacking) ∧
  ∃ a', changed exUnit (newAllWatcher exBacking) =
          (Ok None, set_all a' (newAllWatcher exBacking)).
Proof.
  split_and!; [apply wf_newAllInfo| |].
  - exact (proj1 (changed_cases exService (newAllWatcher exBacking)
                    wf_newAllInfo)).
  - destruct (changed_cases exUnit (newAllWatcher exBacking) wf_newAllInfo)
      as (a' & _ & Hch).
    by exists a'.
Defined.

(** ** Further scenarios *)

(** The service, seen by one watcher. *)
Definition exSeen : allInfo (Key := nat) (EntityInfo := string) :=
  set_store
    (insert 0%nat (set_refCount (incr64 0) (mkEntry 1 1 false 0 "svc-A")))
    exOne.

(** [exWaiting] with watcher 7 at the revno of the service. *)
Definition exCaughtUp : allWatcher (Key := nat) (EntityInfo := string) :=
  set_watchers (insert 7%nat (mkWatcher 1 false)) exWaiting.

(** A [getAll] that finds the service. *)
Definition exGetAll
  : proc (allInfo (Key := nat) (EntityInfo := string)) (option error) :=
  add exService "svc-A";; mret None.

(** A Next request of watcher 7, a change of the unit, which the backing
    does not know, and a stop request of watcher 7. *)
Definition exEvents
  : list (loopEvent (Key := nat) (EntityInfo := string) * list watcher) :=
  [(Request exNext1, [7%nat]);
   (Change "unit" 0%nat, [7%nat]);
   (Request (mkRequest 7%nat None []), [7%nat])].

Lemma exOne_reachable : reachable exOne.
Proof.
  by apply (reach_mutate (Add exService "svc-A") exEmpty exOne reach_new).
Qed.

Lemma exTwo_reachable : reachable exTwo.
Proof.
  by apply (reach_mutate (Add exUnit "unit-0") exOne exTwo exOne_reachable).
Qed.

Lemma exSeen_reachable : reachable exSeen.
Proof.
  exact (reach_seen 0%nat (mkEntry 1 1 false 0 "svc-A") exOne
           exOne_reachable eq_refl).
Qed.

Lemma exOne_noGhost : noGhost exOne.
Proof.
  intros e en He Hen.
  change (list_ exOne) with [0%nat] in He.
  apply list_elem_of_singleton in He as ->.
  vm_compute in Hen. injection Hen as <-. simpl.
  unfold maxInt64. split; [lia|done].
Qed.

Lemma exSeen_noGhost : noGhost exSeen.
Proof.
  intros e en He Hen.
  change (list_ exSeen) with [0%nat] in He.
  apply list_elem_of_singleton in He as ->.
  vm_compute in Hen. injection Hen as <-. simpl.
  unfold maxInt64. split; [lia|lia].
Qed.

Lemma exWaiting_steady : steady exWaiting.
Proof. split; [apply exOne_wf|apply exWaiting_owned]. Qed.

Lemma exCaughtUp_steady : steady exCaughtUp.
Proof. split; [apply exOne_wf|apply exWaiting_owned]. Qed.

Lemma changesSince_up_to_date_witness :
  wf exTwo ∧ latestRevno exTwo ≤ 2 ∧ changesSince 2 exTwo = (Ok [], exTwo).
Proof.
  assert (Hr : latestRevno exTwo ≤ 2) by done.
  split_and!; [apply exTwo_wf|done|].
  exact (changesSince_up_to_date 2 exTwo exTwo_wf Hr).
Defined.

Lemma markRemoved_delta_witness :
  wf exSeen ∧ latestRevno exSeen < maxInt64 ∧
  ∃ a', markRemoved exService exSeen = (Ok tt, a') ∧
        changesSince 1 a' = (Ok [mkDelta true "svc-A"], a').
Proof.
  assert (Hwf : wf exSeen) by (apply reachable_wf, exSeen_reachable).
  assert (Hmax : latestRevno exSeen < maxInt64) by done.
  split_and!; [done|done|].
  exact (markRemoved_delta exService 0%nat (mkEntry 1 1 false 1 "svc-A")
           exSeen Hwf Hmax eq_refl eq_refl eq_refl).
Defined.

Lemma mutate_entry_history_witness :
  wf exOne ∧ latestRevno exOne < maxInt64 ∧
  ∃ a', mutate (Update exService "svc-B") exOne = (Ok tt, a') ∧
        latestRevno exOne ≤ latestRevno a' ≤ latestRevno exOne + 1 ∧
        ∃ en', store a' !! 0%nat = Some en' ∧ creationRevno en' = 1.
Proof.
  assert (Hmax : latestRevno exOne < maxInt64) by done.
  split_and!; [apply exOne_wf|done|].
  set (a' := (update exService "svc-B" exOne).2).
  assert (Hrun : mutate (Update exService "svc-B") exOne = (Ok tt, a'))
    by reflexivity.
  exists a'. split; [done|].
  destruct (mutate_entry_history (Update exService "svc-B") exOne a' 0%nat
              (mkEntry 1 1 false 0 "svc-A") exOne_wf Hmax Hrun eq_refl)
    as (Hlat & en' & Hen' & Hcre & _).
  split; [exact Hlat|]. by exists en'.
Defined.

Lemma reachable_index_consistent_witness :
  reachable exTwo ∧ length (list_ exTwo) = size (entities exTwo).
Proof.
  split; [apply exTwo_reachable|].
  exact (proj2 (proj2 (proj2 (proj2
           (reachable_index_consistent exTwo exTwo_reachable))))).
Defined.

Lemma mutate_no_ghost_witness :
  wf exSeen ∧ noGhost exSeen ∧ latestRevno exSeen < maxInt64 ∧
  consistent (MarkRemoved exService) exSeen ∧
  noGhost (markRemoved exService exSeen).2.
Proof.
  assert (Hwf : wf exSeen) by (apply reachable_wf, exSeen_reachable).
  assert (Hmax : latestRevno exSeen < maxInt64) by done.
  split_and!; [done|apply exSeen_noGhost|done|done|].
  exact (mutate_no_ghost (MarkRemoved exService) exSeen _ Hwf exSeen_noGhost
           Hmax I eq_refl).
Defined.

Lemma changesSince_zero_live_witness :
  reachable exTwo ∧
  changesSince 0 exTwo =
    (Ok [mkDelta false "svc-A"; mkDelta false "unit-0"], exTwo).
Proof.
  split; [apply exTwo_reachable|].
  exact (proj1 (changesSince_zero_live exTwo exTwo_reachable)).
Defined.

Lemma updates_coalesce_witness :
  wf exOne ∧ latestRevno exOne + Z.of_nat (length ["svc-B"; "svc-C"])
               ≤ maxInt64 ∧
  ∃ a', forM_ (update exService) ["svc-B"; "svc-C"] exOne = (Ok tt, a') ∧
        (changesSince 1 a' = (Ok [], a') ∨
         ∃ b j, last ["svc-B"; "svc-C"] = Some j ∧
                changesSince 1 a' = (Ok [mkDelta b j], a')).
Proof.
  assert (Hmax : latestRevno exOne + Z.of_nat (length ["svc-B"; "svc-C"])
                 ≤ maxInt64) by done.
  split_and!; [apply exOne_wf|done|].
  exact (updates_coalesce exService ["svc-B"; "svc-C"] exOne exOne_wf Hmax).
Defined.

Lemma loop_keeps_steady_witness :
  chainsOwned (newAllWatcher exBacking) ∧
  exGetAll (all (newAllWatcher exBacking)) = (Ok None, exOne) ∧
  wf exOne ∧ latestRevno exOne + Z.of_nat (length exEvents) ≤ maxInt64 ∧
  steady (loop exGetAll exEvents (newAllWatcher exBacking)).2 ∧
  (loop exGetAll exEvents (newAllWatcher exBacking)).1 ≠ OutOfFuel.
Proof.
  assert (Hget : exGetAll (all (newAllWatcher exBacking)) = (Ok None, exOne))
    by reflexivity.
  assert (Hog : Ok (None : option error) ≠ OutOfFuel) by done.
  assert (Hmax : latestRevno exOne + Z.of_nat (length exEvents) ≤ maxInt64)
    by done.
  destruct (loop_keeps_steady exGetAll exEvents (newAllWatcher exBacking)
              (Ok None) exOne (chainsOwned_new exBacking) Hget Hog
              exOne_wf Hmax) as (Hst & Hret & _).
  split_and!; [apply chainsOwned_new|done|apply exOne_wf|done|done|done].
Defined.


Lemma handle_stop_releases_witness :
  w_stopped (watcherAt exWaiting 7%nat) = false ∧
  sent (handle (mkRequest 7%nat None []) exWaiting).2 =
    [(exNext2, false); (exNext1, false)] ∧
  waiting (handle (mkRequest 7%nat None []) exWaiting).2 !! 7%nat = None.
Proof.
  assert (Hst : w_stopped (watcherAt exWaiting 7%nat) = false) by reflexivity.
  destruct (handle_stop_releases (mkRequest 7%nat None []) exWaiting
              Hst eq_refl) as (Hsent & Hwait & _).
  split_and!; [done| |].
  - rewrite Hsent. reflexivity.
  - rewrite Hwait. simpl. apply lookup_delete_eq.
Defined.

Lemma respond_skips_up_to_date_witness :
  steady exCaughtUp ∧
  latestRevno (all exCaughtUp) ≤ w_revno (watcherAt exCaughtUp 7%nat) ∧
  ∃ new, sent (respond [7%nat] exCaughtUp).2 = sent exCaughtUp ++ new ∧
         notServed exCaughtUp (respond [7%nat] exCaughtUp).2 new 7%nat.
Proof.
  assert (Hrev : latestRevno (all exCaughtUp)
                 ≤ w_revno (watcherAt exCaughtUp 7%nat)) by done.
  split_and!; [apply exCaughtUp_steady|done|].
  exact (respond_skips_up_to_date [7%nat] exCaughtUp 7%nat
           exCaughtUp_steady Hrev).
Defined.

Lemma respond_no_repeat_witness :
  steady exWaiting ∧
  servedHead exWaiting (respond [7%nat] exWaiting).2
    [(set_changes [mkDelta false "svc-A"] exNext2, true)] 7%nat exNext2
    [exNext1] ∧
  ∃ new2,
    sent (respond [7%nat] (respond [7%nat] exWaiting).2).2 =
      sent (respond [7%nat] exWaiting).2 ++ new2 ∧
    notServed (respond [7%nat] exWaiting).2
      (respond [7%nat] (respond [7%nat] exWaiting).2).2 new2 7%nat.
Proof.
  assert (Hserved : servedHead exWaiting (respond [7%nat] exWaiting).2
            [(set_changes [mkDelta false "svc-A"] exNext2, true)] 7%nat
            exNext2 [exNext1]).
  { exists [mkDelta false "svc-A"]. split_and!; [done|..]; reflexivity. }
  split_and!; [apply exWaiting_steady|done|].
  exact (respond_no_repeat [7%nat] [7%nat] exWaiting 7%nat exNext2 [exNext1]
           _ exWaiting_steady eq_refl Hserved).
Defined.


Lemma seen_then_leave_witness :
  reachable (all exCaughtUp) ∧ noGhost (all exCaughtUp) ∧
  w_revno (watcherAt exCaughtUp 7%nat) = latestRevno (all exCaughtUp) ∧
  ∃ aw1, seen 0 exCaughtUp = (Ok tt, aw1) ∧
         refCount <$> store (all aw1) !! 0%nat = Some 1 ∧
         leave 7%nat aw1 = (Ok tt, exCaughtUp).
Proof.
  assert (Hrev : w_revno (watcherAt exCaughtUp 7%nat)
                 = latestRevno (all exCaughtUp)) by reflexivity.
  split_and!; [apply exOne_reachable|apply exOne_noGhost|done|].
  destruct (seen_then_leave 7%nat exCaughtUp exOne_reachable exOne_noGhost
              Hrev) as (aw1 & Hseen & Hstore & Hleave).
  exists aw1. split_and!; [done| |done].
  rewrite Hstore. reflexivity.
Defined.

Lemma leave_untold_witness :
  reachable (all exWaiting) ∧ w_revno (watcherAt exWaiting 7%nat) ≤ 0 ∧
  leave 7%nat exWaiting = (Ok tt, exWaiting).
Proof.
  assert (Hrev : w_revno (watcherAt exWaiting 7%nat) ≤ 0) by done.
  split_and!; [apply exOne_reachable|done|].
  exact (leave_untold 7%nat exWaiting exOne_reachable Hrev).
Defined.
